(** * cosmiq5-web: dive-computer capture decoding

    A shallow embedding of [cosmiq_dump_analyser.parse_dump] and
    [cosmiq_log_parser.parse_logs], and the properties of the four stages
    they implement: frame demultiplexing, channel materialization
    ([binascii.unhexlify]), padding-aware block segmentation and
    marker-based sample extraction.

    Conventions.
    - A Python [str] is a list of characters; characters are the 8-bit code
      points of [ascii] (code points 128..255 stand for the non-ASCII
      characters a capture file may contain).
    - A Python [bytes]/[bytearray] is a list of [byte].
    - Python integers are [Z] where the code subtracts ([len(data) - 4]) and
      [nat] where they only count or index.
    - Python floats are the kernel's binary64 [float]. *)

From Stdlib Require Import Ascii String Strings.Byte Floats Uint63.
From Stdlib Require Import Arith ZArith NArith Bool Lia List Sorted.
From Stdlib Require DecimalString DecimalNat Finite.
Import ListNotations.

Set Implicit Arguments.

(** A decimal float literal denotes the nearest binary64 value, as it does
    in Python. *)
#[local] Set Warnings "-inexact-float".

(* ================================================================== *)
(** * Part I: the program *)
(* ================================================================== *)

(** ** Strings, bytes and slices *)

Definition str := list ascii.
Definition bytes := list byte.

(** String literals of the source, as character lists. *)
Definition lit (s : string) : str := list_ascii_of_string s.

(** [s[i:j]] for [0 <= i <= j]: Python slices clip at the end of the
    sequence and never raise. *)
Definition slice {A} (s : list A) (i j : nat) : list A :=
  firstn (j - i) (skipn i s).

(** [s[i:]]. *)
Definition slice_from {A} (s : list A) (i : nat) : list A := skipn i s.

(** [==] on [str]. *)
Fixpoint str_eqb (a b : str) : bool :=
  match a, b with
  | [], [] => true
  | x :: a', y :: b' => Ascii.eqb x y && str_eqb a' b'
  | _, _ => false
  end.

(** [==] on [bytes]. *)
Fixpoint bytes_eqb (a b : bytes) : bool :=
  match a, b with
  | [], [] => true
  | x :: a', y :: b' => Byte.eqb x y && bytes_eqb a' b'
  | _, _ => false
  end.

(** The characters [str.strip()] removes when called without argument:
    TAB, LF, VT, FF, CR, FS, GS, RS, US, SPACE, and (outside ASCII) NEL and
    NBSP. *)
Definition isspace (c : ascii) : bool :=
  let n := nat_of_ascii c in
  ((9 <=? n) && (n <=? 13)) || ((28 <=? n) && (n <=? 32))
  || (n =? 133) || (n =? 160).

Fixpoint lstrip (s : str) : str :=
  match s with
  | [] => []
  | c :: s' => if isspace c then lstrip s' else s
  end.

Definition rstrip (s : str) : str := rev (lstrip (rev s)).

Definition strip (s : str) : str := rstrip (lstrip s).

(** ** Frame demultiplexer: the first loop of [parse_dump] *)

Record channels := Channels { header_hex : str; body_hex : str }.

Definition channels_init : channels := Channels (lit "") (lit "").

(** The guard [if len(line) < 10: continue], on the stripped line. *)
Definition too_short (line : str) : bool := length (strip line) <? 10.

(** [cmd = line[0:2]] and [payload = line[6:]] of the stripped line. *)
Definition frame_cmd (line : str) : str := slice (strip line) 0 2.
Definition frame_payload (line : str) : str := slice_from (strip line) 6.

(** One iteration of [for line in lines]. *)
Definition demux_step (ch : channels) (line : str) : channels :=
  if too_short line then ch
  else
    let cmd := frame_cmd line in
    let payload := frame_payload line in
    if str_eqb cmd (lit "42") then
      Channels (header_hex ch ++ payload) (body_hex ch)
    else if str_eqb cmd (lit "44") then
      Channels (header_hex ch) (body_hex ch ++ payload)
    else ch.

Definition demux (lines : list str) : channels :=
  fold_left demux_step lines channels_init.

(** The byte count printed in [--- HEADER (n bytes) ---]:
    [len(header_hex) // 2]. *)
Definition header_byte_count (ch : channels) : nat :=
  length (header_hex ch) / 2.

(** ** Channel materializer: [binascii.unhexlify] *)

(** What [binascii.unhexlify] does on a [str] argument: a [ValueError] for
    a string with a non-ASCII character, [binascii.Error] for an odd length
    or a character that is not a hex digit, the decoded bytes otherwise. *)
Inductive unhex_result :=
| Decoded (b : bytes)
| BinasciiError
| ValueError.

Definition is_ascii (c : ascii) : bool := nat_of_ascii c <? 128.

(** Value of a hex digit, either case. *)
Definition hex_digit (c : ascii) : option N :=
  let n := N_of_ascii c in
  if (48 <=? n)%N && (n <=? 57)%N then Some (n - 48)%N
  else if (97 <=? n)%N && (n <=? 102)%N then Some (n - 87)%N
  else if (65 <=? n)%N && (n <=? 70)%N then Some (n - 55)%N
  else None.

Definition is_hex (c : ascii) : bool :=
  match hex_digit c with Some _ => true | None => false end.

Definition byte_of_N (n : N) : byte :=
  match Byte.of_N n with Some b => b | None => x00 end.

(** Two digits per byte, most significant first. *)
Fixpoint a2b_hex (s : str) : option bytes :=
  match s with
  | [] => Some []
  | [_] => None
  | hi :: lo :: s' =>
      match hex_digit hi, hex_digit lo with
      | Some h, Some l =>
          match a2b_hex s' with
          | Some bs => Some (byte_of_N (16 * h + l) :: bs)
          | None => None
          end
      | _, _ => None
      end
  end.

Definition unhexlify (s : str) : unhex_result :=
  if negb (forallb is_ascii s) then ValueError
  else if Nat.odd (length s) then BinasciiError
  else match a2b_hex s with
       | Some bs => Decoded bs
       | None => BinasciiError
       end.

(** ** [bytes.hex()] and [str.upper()]

    [upper] is only ever applied to the output of [hex], which is made of
    the characters [0-9a-f]; on those (and on all of ASCII) it is the
    map below. *)

Definition hex_char (n : N) : ascii :=
  if (n <? 10)%N then ascii_of_N (48 + n) else ascii_of_N (87 + n).

Definition hex_of_byte (b : byte) : str :=
  let n := Byte.to_N b in [hex_char (n / 16); hex_char (n mod 16)].

Definition hex (bs : bytes) : str := flat_map hex_of_byte bs.

Definition upper_char (c : ascii) : ascii :=
  let n := N_of_ascii c in
  if (97 <=? n)%N && (n <=? 122)%N then ascii_of_N (n - 32) else c.

Definition upper (s : str) : str := map upper_char s.

(** ** Block segmenter: the second loop of [parse_dump] *)

(** [range(start, stop, step)] for a positive [step]. *)
Definition range (start stop step : nat) : list nat :=
  map (fun k => start + k * step)
      (seq 0 ((stop - start + (step - 1)) / step)).

(** The three loop variables. *)
Record seg_state := SegState {
  unique_data_chunks : list bytes;
  current_chunk : bytes;
  in_data : bool
}.

Definition seg_init : seg_state := SegState [] [] false.

(** [chunk.hex().upper() == "FFFFFFFFFFFF"]. *)
Definition is_padding (chunk : bytes) : bool :=
  str_eqb (upper (hex chunk)) (lit "FFFFFFFFFFFF").

(** The loop body, given the window [chunk]. *)
Definition seg_step (st : seg_state) (chunk : bytes) : seg_state :=
  if is_padding chunk then
    if in_data st then
      SegState (unique_data_chunks st ++ [current_chunk st]) [] false
    else st
  else
    SegState (unique_data_chunks st) (current_chunk st ++ chunk) true.

(** [for i in range(0, len(body_bytes), 6): chunk = body_bytes[i : i + 6]]. *)
Definition seg_loop (body_bytes : bytes) : seg_state :=
  fold_left
    (fun st i => seg_step st (slice body_bytes i (i + 6)))
    (range 0 (length body_bytes) 6)
    seg_init.

(** [if current_chunk: unique_data_chunks.append(current_chunk)]: an empty
    [bytearray] is falsy. *)
Definition seg_flush (st : seg_state) : list bytes :=
  match current_chunk st with
  | [] => unique_data_chunks st
  | _ :: _ => unique_data_chunks st ++ [current_chunk st]
  end.

Definition segment (body_bytes : bytes) : list bytes :=
  seg_flush (seg_loop body_bytes).

(** ** [parse_dump], from the lines read to the blocks written *)

(** How [parse_dump] ends.  The header text is printed before the body is
    decoded, so every outcome carries it.  [binascii.Error] is caught
    ([Error decoding hex data], then [return]); nothing catches the
    [ValueError]. *)
Inductive dump_outcome :=
| Dumped (header : str) (body_bytes : bytes) (blocks : list bytes)
| DecodeFailed (header : str)
| Uncaught (header : str).

Definition parse_dump (lines : list str) : dump_outcome :=
  let ch := demux lines in
  match unhexlify (body_hex ch) with
  | Decoded body_bytes =>
      Dumped (header_hex ch) body_bytes (segment body_bytes)
  | BinasciiError => DecodeFailed (header_hex ch)
  | ValueError => Uncaught (header_hex ch)
  end.

Definition reported_header (o : dump_outcome) : str :=
  match o with
  | Dumped h _ _ | DecodeFailed h | Uncaught h => h
  end.

(** The blocks saved as [dive_log_block_<n>.bin], if the run gets there. *)
Definition saved_blocks (o : dump_outcome) : option (list bytes) :=
  match o with
  | Dumped _ _ bl => Some bl
  | DecodeFailed _ | Uncaught _ => None
  end.

(** ** Sample extractor: the [while] loop of [parse_logs] *)

(** One entry of [samples]: the dict with keys [offset], [marker],
    [raw_val] and [depth_m]. *)
Record sample := Sample {
  offset : nat;
  marker : str;
  raw_val : Z;
  depth_m : float
}.

(** How a run of the loop can end. *)
Inductive run (A : Type) :=
| Returns (a : A)
| StructError
| OutOfFuel.
Arguments StructError {A}.
Arguments OutOfFuel {A}.

(** [struct.unpack("<H", b)[0]]: exactly two bytes, little endian. *)
Definition unpack_H (b : bytes) : option Z :=
  match b with
  | [lo; hi] => Some (Z.of_N (Byte.to_N lo) + 256 * Z.of_N (Byte.to_N hi))%Z
  | _ => None
  end.

Definition is_marker (m : bytes) : bool :=
  bytes_eqb m [xc2; x00] || bytes_eqb m [xc3; x00] || bytes_eqb m [xc4; x00].

(** [val / 100.0]: the integer, here below 65536 and so converted
    exactly, divided as a binary64 float. *)
Definition scaled (val : Z) : float :=
  PrimFloat.div (PrimFloat.of_uint63 (Uint63.of_Z val)) 100%float.

(** [while i < len(data) - 4: ...], one iteration per unit of fuel. *)
Fixpoint scan (fuel : nat) (data : bytes) (i : nat) (samples : list sample)
  : run (list sample) :=
  if (Z.of_nat i <? Z.of_nat (length data) - 4)%Z then
    match fuel with
    | O => OutOfFuel
    | S fuel' =>
        let marker := slice data i (i + 2) in
        if is_marker marker then
          let val_bytes := slice data (i + 2) (i + 4) in
          match unpack_H val_bytes with
          | None => StructError
          | Some val =>
              scan fuel' data (i + 4)
                   (samples ++ [Sample i (hex marker) val (scaled val)])
          end
        else scan fuel' data (i + 1) samples
    end
  else Returns samples.

(** The samples of one [.bin] file; the loop runs at most [len(data)]
    times. *)
Definition extract_samples (data : bytes) : run (list sample) :=
  scan (length data) data 0 [].

(** [parse_logs] on the contents of the [.bin] files, in the order of
    their sorted names: one list of samples per file. *)
Definition parse_logs (bin_files : list bytes) : list (run (list sample)) :=
  map extract_samples bin_files.

(** ** The scanner the specification describes

    Same loop, with the guard the specification words: "while at least 4
    bytes remain", that is, while a 2-byte marker and a 2-byte value fit at
    [i]. *)
Fixpoint scan_fitting (fuel : nat) (data : bytes) (i : nat)
  (samples : list sample) : run (list sample) :=
  if i + 4 <=? length data then
    match fuel with
    | O => OutOfFuel
    | S fuel' =>
        let marker := slice data i (i + 2) in
        if is_marker marker then
          let val_bytes := slice data (i + 2) (i + 4) in
          match unpack_H val_bytes with
          | None => StructError
          | Some val =>
              scan_fitting fuel' data (i + 4)
                   (samples ++ [Sample i (hex marker) val (scaled val)])
          end
        else scan_fitting fuel' data (i + 1) samples
    end
  else Returns samples.

(** ** Views used to state the properties *)

(** The window partition of the segmenter: the chunks its loop visits. *)
Definition windows (body_bytes : bytes) : list bytes :=
  map (fun i => slice body_bytes i (i + 6)) (range 0 (length body_bytes) 6).

(** The filler pattern F: six bytes 0xFF. *)
Definition filler : bytes := repeat xff 6.

(** Number of maximal runs of consecutive non-filler windows: a run starts
    at every non-filler window that is first or follows a filler window. *)
Fixpoint count_runs (inside : bool) (ws : list bytes) : nat :=
  match ws with
  | [] => 0
  | w :: ws' =>
      if bytes_eqb w filler then count_runs false ws'
      else (if inside then 0 else 1) + count_runs true ws'
  end.

(** The payloads of the frames routed to the channel of command [cmd], in
    capture order. *)
Definition routed (cmd : str) (lines : list str) : list str :=
  map frame_payload
      (filter (fun l => negb (too_short l) && str_eqb (frame_cmd l) cmd)
              lines).

Definition channel (cmd : str) (ch : channels) : str :=
  if str_eqb cmd (lit "42") then header_hex ch
  else if str_eqb cmd (lit "44") then body_hex ch
  else [].

(** The shape of a window partition: windows of 6 bytes, the last one of
    1 to 6 bytes. *)
Inductive chunked : list bytes -> Prop :=
| chunked_nil : chunked []
| chunked_last w : 0 < length w <= 6 -> chunked [w]
| chunked_cons w ws :
    length w = 6 -> ws <> [] -> chunked ws -> chunked (w :: ws).

(** [b] is made of a maximal run of consecutive non-filler windows of the
    partition [W]: the windows [ws], none of them the filler, with a
    filler window or an end of the partition on either side. *)
Definition maximal_run (W : list bytes) (b : bytes) : Prop :=
  exists pre ws post,
    W = pre ++ ws ++ post /\ ws <> [] /\ b = concat ws /\
    Forall (fun w => w <> filler) ws /\
    (pre = [] \/ exists pre', pre = pre' ++ [filler]) /\
    (post = [] \/ exists post', post = filler :: post').

(** The non-filler windows of a partition, in order. *)
Definition data_windows (W : list bytes) : list bytes :=
  filter (fun w => negb (bytes_eqb w filler)) W.

(** The full windows of a sequence, and the short window left when its
    length is not a multiple of 6. *)
Definition whole_windows (data : bytes) : bytes :=
  firstn (6 * (length data / 6)) data.

Definition short_tail (data : bytes) : bytes :=
  skipn (6 * (length data / 6)) data.

(** The capture of the end-to-end scenario. *)
Definition three_lines : list str :=
  [lit "42AAAACAFEBABE"; lit "44BBBBFFFFFFFFFFFF";
   lit "44CCCCC20012340000FFFFFFFFFFFF"].

(** The flag and the open block agree. *)
Definition seg_ok (st : seg_state) : Prop :=
  in_data st = true <-> current_chunk st <> [].

(** Two lines that differ at most in characters [2,6) of their stripped
    form (the checksum and length fields). *)
Definition same_frame (l1 l2 : str) : Prop :=
  length (strip l1) = length (strip l2) /\
  slice (strip l1) 0 2 = slice (strip l2) 0 2 /\
  slice_from (strip l1) 6 = slice_from (strip l2) 6.

(** A capture line with its line terminator, as [readlines] returns it. *)
Definition with_newline (s : str) : str := s ++ [ascii_of_nat 10].

(** ** The rest of [parse_dump]: what is printed and saved per block *)

(** [[s[i : i + n] for i in range(0, len(s), n)]]. *)
Definition chunks {A} (n : nat) (s : list A) : list (list A) :=
  map (fun i => slice s i (i + n)) (range 0 (length s) n).

(** The hex dump of a block: [hex_str = block.hex().upper()], printed in
    lines [hex_str[i : i + 32]]. *)
Definition hex_dump (block : bytes) : list str :=
  chunks 32 (upper (hex block)).

(** [str(n)] for a non-negative integer. *)
Definition str_of_nat (n : nat) : str :=
  list_ascii_of_string
    (DecimalString.NilEmpty.string_of_uint (Nat.to_uint n)).

(** The name of the file a block is saved under, in the data directory:
    [f"dive_log_block_{idx + 1}.bin"]. *)
Definition block_filename (idx : nat) : str :=
  lit "dive_log_block_" ++ str_of_nat (idx + 1) ++ lit ".bin".

(** [enumerate(l)]. *)
Definition enumerate {A} (l : list A) : list (nat * A) :=
  combine (seq 0 (length l)) l.

(** What one iteration of [for idx, block in enumerate(unique_data_chunks)]
    prints and writes. *)
Record saved_block := SavedBlock {
  file_name : str;
  size_printed : nat;
  lines_printed : list str;
  file_content : bytes
}.

Definition save_block (idx : nat) (block : bytes) : saved_block :=
  SavedBlock (block_filename idx) (length block) (hex_dump block) block.

Definition save_blocks (unique_data_chunks : list bytes) : list saved_block :=
  map (fun p => save_block (fst p) (snd p)) (enumerate unique_data_chunks).

(** The data directory after the writes, as a map from file name to
    content: [open(name, "wb")] replaces what a file of that name held. *)
Fixpoint write_all (files : list (str * bytes)) (saved : list saved_block)
  : list (str * bytes) :=
  match saved with
  | [] => files
  | b :: saved' =>
      write_all
        ((file_name b, file_content b)
         :: filter (fun f => negb (str_eqb (fst f) (file_name b))) files)
        saved'
  end.

Definition read_file (files : list (str * bytes)) (name : str)
  : option bytes :=
  match find (fun f => str_eqb (fst f) name) files with
  | Some f => Some (snd f)
  | None => None
  end.

(** ** The rest of [parse_logs]: the header line printed per file *)

(** [data[:16].hex().upper()]. *)
Definition header_view (data : bytes) : str :=
  upper (hex (slice data 0 16)).

(** ** Views used to state the further properties *)

(** Prepending a sample to the result of a run. *)
Definition run_cons (s : sample) (r : run (list sample))
  : run (list sample) :=
  match r with
  | Returns l => Returns (s :: l)
  | StructError => StructError
  | OutOfFuel => OutOfFuel
  end.

(** The sample [s] is what the bytes of [data] at its offset decode to. *)
Definition decodes_at (data : bytes) (s : sample) : Prop :=
  offset s + 4 < length data /\
  is_marker (slice data (offset s) (offset s + 2)) = true /\
  marker s = hex (slice data (offset s) (offset s + 2)) /\
  (marker s = lit "c200" \/ marker s = lit "c300" \/
   marker s = lit "c400") /\
  unpack_H (slice data (offset s + 2) (offset s + 4)) = Some (raw_val s) /\
  (0 <= raw_val s < 65536)%Z /\
  depth_m s = scaled (raw_val s).

(** The 4-byte records of two samples do not overlap, the first one
    coming first. *)
Definition before (a b : sample) : Prop := offset a + 4 <= offset b.

(** Surrounding a line with white space. *)
Definition padded (line line' : str) : Prop :=
  exists a b,
    forallb isspace a = true /\ forallb isspace b = true /\
    line' = a ++ line ++ b.

(** The lines that are frames of the channel of command [cmd]. *)
Definition frames_of (cmd : str) (lines : list str) : list str :=
  filter (fun l => negb (too_short l) && str_eqb (frame_cmd l) cmd) lines.

(** Number of filler windows of a partition. *)
Definition filler_count (W : list bytes) : nat :=
  length (filter (fun w => bytes_eqb w filler) W).

(* ================================================================== *)
(** * Part II: properties *)
(* ================================================================== *)

(** ** Equality tests *)

Lemma str_eqb_eq (a b : str) : str_eqb a b = true <-> a = b.
Proof.
  revert b; induction a as [|x a IH]; intros [|y b]; simpl;
    try (split; [discriminate | discriminate]); try tauto.
  rewrite andb_true_iff, Ascii.eqb_eq, IH.
  split; [intros [-> ->]; reflexivity | intros H; inversion H; auto].
Qed.

Lemma str_eqb_refl (a : str) : str_eqb a a = true.
Proof. apply str_eqb_eq; reflexivity. Qed.

Lemma bytes_eqb_eq (a b : bytes) : bytes_eqb a b = true <-> a = b.
Proof.
  revert b; induction a as [|x a IH]; intros [|y b]; simpl;
    try (split; [discriminate | discriminate]); try tauto.
  rewrite andb_true_iff, IH.
  split.
  - intros [H ->]. apply Byte.byte_dec_bl in H. now subst.
  - intros H; inversion H; subst; split; auto. now apply Byte.byte_dec_lb.
Qed.

Lemma bytes_eqb_neq (a b : bytes) : bytes_eqb a b = false <-> a <> b.
Proof.
  rewrite <- bytes_eqb_eq. destruct (bytes_eqb a b); split; congruence.
Qed.

(** ** Frame demultiplexer *)

Section Demux.

Lemma demux_step_short ch line :
  too_short line = true -> demux_step ch line = ch.
Proof. unfold demux_step; now intros ->. Qed.

Lemma demux_step_header ch line :
  too_short line = false -> frame_cmd line = lit "42" ->
  demux_step ch line =
    Channels (header_hex ch ++ frame_payload line) (body_hex ch).
Proof. unfold demux_step; now intros -> ->. Qed.

Lemma demux_step_body ch line :
  too_short line = false -> frame_cmd line = lit "44" ->
  demux_step ch line =
    Channels (header_hex ch) (body_hex ch ++ frame_payload line).
Proof. unfold demux_step; now intros -> ->. Qed.

Lemma routed_cons cmd l lines :
  routed cmd (l :: lines) =
    if negb (too_short l) && str_eqb (frame_cmd l) cmd
    then frame_payload l :: routed cmd lines
    else routed cmd lines.
Proof.
  unfold routed; simpl.
  now destruct (negb (too_short l) && str_eqb (frame_cmd l) cmd).
Qed.

(** The loop only ever appends: each accumulator is the concatenation of
    the payloads routed to it. *)
Lemma demux_fold lines : forall ch,
  fold_left demux_step lines ch =
    Channels (header_hex ch ++ concat (routed (lit "42") lines))
             (body_hex ch ++ concat (routed (lit "44") lines)).
Proof.
  induction lines as [|l lines IH]; intros [h b].
  - simpl. now rewrite !app_nil_r.
  - cbn [fold_left]. rewrite IH, !routed_cons. unfold demux_step.
    destruct (too_short l); [reflexivity|].
    destruct (str_eqb (frame_cmd l) (lit "42")) eqn:E42;
      destruct (str_eqb (frame_cmd l) (lit "44")) eqn:E44;
      cbn [negb andb header_hex body_hex concat];
      rewrite <- ?app_assoc; try reflexivity.
    apply str_eqb_eq in E42, E44. rewrite E42 in E44. discriminate.
Qed.

Lemma demux_routed lines :
  demux lines =
    Channels (concat (routed (lit "42") lines))
             (concat (routed (lit "44") lines)).
Proof. unfold demux. now rewrite demux_fold. Qed.

Lemma frame_payload_length line :
  length (frame_payload line) = length (strip line) - 6.
Proof. unfold frame_payload, slice_from. apply length_skipn. Qed.

End Demux.

(** C9.  The minimum-length test is applied to the stripped line, and its
    boundary is at exactly 10 characters: a line whose stripped form has
    fewer than 10 characters is dropped (so is ["4200AABB"], which has 8);
    a line of 10 or more is a frame, its payload is everything from
    character 6 on, hence at least 4 characters, and is appended to the
    channel of its command code. *)
Theorem frame_length_boundary (ch : channels) (line : str) :
  (length (strip line) < 10 -> demux_step ch line = ch) /\
  (10 <= length (strip line) ->
     length (frame_payload line) = length (strip line) - 6 /\
     4 <= length (frame_payload line) /\
     (frame_cmd line = lit "42" ->
        demux_step ch line =
          Channels (header_hex ch ++ frame_payload line) (body_hex ch)) /\
     (frame_cmd line = lit "44" ->
        demux_step ch line =
          Channels (header_hex ch) (body_hex ch ++ frame_payload line))) /\
  demux_step ch (lit "4200AABB") = ch.
Proof.
  split; [|split].
  - intros H. apply demux_step_short. unfold too_short.
    now apply Nat.ltb_lt.
  - intros H.
    assert (T : too_short line = false)
      by (unfold too_short; now apply Nat.ltb_ge).
    pose proof (frame_payload_length line) as L.
    repeat split; try lia.
    + now apply demux_step_header.
    + now apply demux_step_body.
  - reflexivity.
Qed.

Lemma frame_length_boundary_witness :
  demux_step channels_init (lit "42AABBCCD") = channels_init /\
  demux_step channels_init (lit "42AABBCCDD") = Channels (lit "CCDD") [].
Proof.
  split.
  - destruct (frame_length_boundary channels_init (lit "42AABBCCD"))
      as [Hshort _].
    apply Hshort. vm_compute. lia.
  - destruct (frame_length_boundary channels_init (lit "42AABBCCDD"))
      as (_ & Hframe & _).
    destruct Hframe as (_ & _ & Hheader & _); [vm_compute; lia|].
    exact (Hheader eq_refl).
Defined.

(** C9 as stated fails three times over: the 8-character line is not a
    frame; a 10-character line contributes its 4 payload characters, not an
    empty payload; and a raw line of 10 characters whose last one is the
    line terminator is dropped, the test being made after [strip]. *)
Lemma line_of_8_is_dropped :
  too_short (lit "4200AABB") = true /\
  demux [lit "4200AABB"] = channels_init /\
  demux [lit "42AABBCCDD"] = Channels (lit "CCDD") [] /\
  length (with_newline (lit "42AABBCCD")) = 10 /\
  too_short (with_newline (lit "42AABBCCD")) = true.
Proof. repeat split. Qed.

(** C10.  The accumulators do not depend on characters [2,6): two captures
    whose lines pairwise have stripped forms of equal length, with equal
    command codes and equal payloads, demultiplex to the same channels. *)
Theorem demux_ignores_checksum_and_length (ls1 ls2 : list str) :
  Forall2 same_frame ls1 ls2 -> demux ls1 = demux ls2.
Proof.
  intros H. unfold demux. generalize channels_init.
  induction H as [|l1 l2 ls1 ls2 (Hlen & Hcmd & Hpay) _ IH]; intros ch.
  - reflexivity.
  - cbn [fold_left]. rewrite IH. f_equal.
    unfold demux_step, too_short, frame_cmd, frame_payload.
    now rewrite Hlen, Hcmd, Hpay.
Qed.

Lemma demux_ignores_checksum_and_length_witness :
  Forall2 same_frame
    [lit "42AAAACAFEBABE"; lit "44BBBBFFFFFFFFFFFF"]
    [lit "4200FFCAFEBABE"; with_newline (lit "  44zz!!FFFFFFFFFFFF")] /\
  demux [lit "42AAAACAFEBABE"; lit "44BBBBFFFFFFFFFFFF"] =
  demux [lit "4200FFCAFEBABE"; with_newline (lit "  44zz!!FFFFFFFFFFFF")].
Proof.
  assert (H : Forall2 same_frame
    [lit "42AAAACAFEBABE"; lit "44BBBBFFFFFFFFFFFF"]
    [lit "4200FFCAFEBABE"; with_newline (lit "  44zz!!FFFFFFFFFFFF")])
    by (repeat constructor).
  split; [exact H | exact (demux_ignores_checksum_and_length H)].
Defined.

(** ** Channel materializer *)

Section Unhexlify.

(** Induction two characters at a time, the way the decoder reads. *)
Lemma pair_ind (A : Type) (P : list A -> Prop) :
  P [] -> (forall x, P [x]) ->
  (forall x y l, P l -> P (x :: y :: l)) ->
  forall l, P l.
Proof.
  intros Hnil Hone Hstep l.
  enough (H : P l /\ forall x, P (x :: l)) by apply H.
  induction l as [|y l [IH1 IH2]]; split; auto.
Qed.

Lemma is_hex_ascii c : is_hex c = true -> is_ascii c = true.
Proof.
  destruct c as [b0 b1 b2 b3 b4 b5 b6 b7].
  destruct b0, b1, b2, b3, b4, b5, b6, b7; vm_compute; congruence.
Qed.

Lemma is_hex_digit c :
  is_hex c = true <-> exists d, hex_digit c = Some d.
Proof.
  unfold is_hex. destruct (hex_digit c) as [d|]; split;
    try reflexivity; try discriminate; eauto.
  intros [d [=]].
Qed.

Lemma a2b_hex_Some : forall s bs,
  a2b_hex s = Some bs ->
  forallb is_hex s = true /\ length s = 2 * length bs.
Proof.
  induction s as [| x | hi lo s IH] using pair_ind; intros bs H.
  - inversion H; subst; split; reflexivity.
  - discriminate.
  - cbn [a2b_hex] in H. unfold forallb, is_hex.
    destruct (hex_digit hi), (hex_digit lo); try discriminate.
    destruct (a2b_hex s) as [bs'|] eqn:E; [|discriminate].
    inversion H; subst. destruct (IH _ eq_refl) as [IHhex IHlen].
    split; [exact IHhex | simpl; lia].
Qed.

Lemma a2b_hex_None : forall s,
  a2b_hex s = None ->
  Nat.odd (length s) = true \/ Exists (fun c => is_hex c = false) s.
Proof.
  induction s as [| x | hi lo s IH] using pair_ind; intros H.
  - discriminate.
  - left; reflexivity.
  - cbn [a2b_hex] in H.
    destruct (hex_digit hi) as [h|] eqn:Ehi;
      [|right; left; unfold is_hex; now rewrite Ehi].
    destruct (hex_digit lo) as [l|] eqn:Elo;
      [|right; right; left; unfold is_hex; now rewrite Elo].
    destruct (a2b_hex s); [discriminate|].
    destruct (IH eq_refl) as [Hodd | Hex].
    + left. exact Hodd.
    + right. now do 2 right.
Qed.

Lemma forallb_not_Exists (s : str) :
  forallb is_hex s = true -> ~ Exists (fun c => is_hex c = false) s.
Proof.
  intros H Hex. rewrite forallb_forall in H.
  apply Exists_exists in Hex as (c & Hin & Hc).
  rewrite (H c Hin) in Hc. discriminate.
Qed.

Lemma odd_double n : Nat.odd (2 * n) = false.
Proof. now rewrite Nat.odd_mul. Qed.

(** The decoder yields bytes exactly when the pairwise decoding does. *)
Lemma unhexlify_Decoded s bs :
  unhexlify s = Decoded bs <-> a2b_hex s = Some bs.
Proof.
  unfold unhexlify. split.
  - destruct (negb (forallb is_ascii s)); [discriminate|].
    destruct (Nat.odd (length s)); [discriminate|].
    destruct (a2b_hex s); [|discriminate]. now intros [= ->].
  - intros H. destruct (a2b_hex_Some _ H) as [Hhex Hlen].
    assert (Hascii : forallb is_ascii s = true).
    { apply forallb_forall. intros c Hc. apply is_hex_ascii.
      rewrite forallb_forall in Hhex. now apply Hhex. }
    now rewrite Hascii, Hlen, odd_double, H.
Qed.

Lemma unhexlify_fails s :
  (forall bs, unhexlify s <> Decoded bs) <->
  (Nat.odd (length s) = true \/ Exists (fun c => is_hex c = false) s).
Proof.
  split.
  - intros H. apply a2b_hex_None.
    destruct (a2b_hex s) as [bs|] eqn:E; [|reflexivity].
    exfalso. apply (H bs). now apply unhexlify_Decoded.
  - intros H bs Hd. apply unhexlify_Decoded in Hd.
    destruct (a2b_hex_Some _ Hd) as [Hhex Hlen].
    destruct H as [Hodd | Hex].
    + rewrite Hlen, odd_double in Hodd. discriminate.
    + now apply (forallb_not_Exists Hhex).
Qed.

(** On ASCII text the failure is the [binascii.Error] that [parse_dump]
    catches. *)
Lemma unhexlify_ascii_fails s :
  forallb is_ascii s = true ->
  (forall bs, unhexlify s <> Decoded bs) -> unhexlify s = BinasciiError.
Proof.
  unfold unhexlify. intros -> H. cbn [negb] in *.
  destruct (Nat.odd (length s)); [reflexivity|].
  destruct (a2b_hex s) as [bs|]; [now destruct (H bs) | reflexivity].
Qed.

(** The failure nothing catches: a character outside ASCII. *)
Lemma unhexlify_ValueError s :
  unhexlify s = ValueError <-> Exists (fun c => is_ascii c = false) s.
Proof.
  unfold unhexlify. destruct (forallb is_ascii s) eqn:E; cbn [negb].
  - split.
    + destruct (Nat.odd (length s)); [discriminate|].
      destruct (a2b_hex s); discriminate.
    + intros Hex. rewrite forallb_forall in E.
      apply Exists_exists in Hex as (c & Hin & Hc).
      rewrite (E c Hin) in Hc. discriminate.
  - split; [intros _ | reflexivity].
    apply Exists_exists.
    induction s as [|c s IH]; [discriminate|].
    cbn [forallb] in E. apply andb_false_iff in E as [E | E].
    + exists c. split; [now left | exact E].
    + destruct (IH E) as (c' & Hin & Hc').
      exists c'. split; [now right | exact Hc'].
Qed.

Lemma a2b_hex_app : forall s1 b1 s2 b2,
  a2b_hex s1 = Some b1 -> a2b_hex s2 = Some b2 ->
  a2b_hex (s1 ++ s2) = Some (b1 ++ b2).
Proof.
  induction s1 as [| x | hi lo s1 IH] using pair_ind;
    intros b1 s2 b2 H1 H2.
  - inversion H1; subst. exact H2.
  - discriminate.
  - cbn [a2b_hex app] in *.
    destruct (hex_digit hi), (hex_digit lo); try discriminate.
    destruct (a2b_hex s1) as [bs'|] eqn:E; [|discriminate].
    inversion H1; subst. now rewrite (IH _ _ _ eq_refl H2).
Qed.

Lemma a2b_hex_concat (ps : list str) (bss : list bytes) :
  Forall2 (fun p b => a2b_hex p = Some b) ps bss ->
  a2b_hex (concat ps) = Some (concat bss).
Proof.
  induction 1 as [|p b ps bss Hp _ IH]; [reflexivity|].
  cbn [concat]. now apply a2b_hex_app.
Qed.

End Unhexlify.

Lemma channel_routed cmd lines :
  cmd = lit "42" \/ cmd = lit "44" ->
  channel cmd (demux lines) = concat (routed cmd lines).
Proof.
  rewrite demux_routed. intros [-> | ->]; reflexivity.
Qed.

(** C4, amended.  The text of a channel is the concatenation, in frame
    order, of the payloads of the frames routed to it; when each of these
    payloads is the hex text of a byte sequence, decoding the channel text
    gives these byte sequences back, concatenated in frame order, and the
    number of hex characters in the channel is twice the number of bytes
    (two characters per byte, not two bytes per character). *)
Theorem channel_hex_roundtrip
  (cmd : str) (lines : list str) (payloads : list bytes) :
  cmd = lit "42" \/ cmd = lit "44" ->
  Forall2 (fun p b => unhexlify p = Decoded b) (routed cmd lines) payloads ->
  channel cmd (demux lines) = concat (routed cmd lines) /\
  unhexlify (channel cmd (demux lines)) = Decoded (concat payloads) /\
  length (channel cmd (demux lines)) = 2 * length (concat payloads).
Proof.
  intros Hcmd Hdec.
  assert (H : a2b_hex (concat (routed cmd lines)) = Some (concat payloads)).
  { apply a2b_hex_concat.
    eapply Forall2_impl; [|exact Hdec].
    intros p b. apply unhexlify_Decoded. }
  rewrite (channel_routed lines Hcmd).
  split; [reflexivity|]. split.
  - now apply unhexlify_Decoded.
  - now apply a2b_hex_Some.
Qed.

Lemma channel_hex_roundtrip_witness :
  unhexlify
    (channel (lit "44")
       (demux [lit "44BBBBFFFFFFFFFFFF"; lit "42AAAACAFEBABE";
               lit "44CCCCC20012340000FFFFFFFFFFFF"])) =
  Decoded ([xff; xff; xff; xff; xff; xff] ++
           [xc2; x00; x12; x34; x00; x00; xff; xff; xff; xff; xff; xff]).
Proof.
  apply (@channel_hex_roundtrip (lit "44")
           [lit "44BBBBFFFFFFFFFFFF"; lit "42AAAACAFEBABE";
            lit "44CCCCC20012340000FFFFFFFFFFFF"]
           [[xff; xff; xff; xff; xff; xff];
            [xc2; x00; x12; x34; x00; x00; xff; xff; xff; xff; xff; xff]]).
  - right; reflexivity.
  - repeat constructor.
Defined.

(** C4 as stated fails: the frame ["42AAAACAFEBABE"] routes 8 hex
    characters to the header channel, which decode to 4 bytes, not to
    twice 8. *)
Lemma bytes_are_half_the_hex_characters :
  length (concat (routed (lit "42") [lit "42AAAACAFEBABE"])) = 8 /\
  length (header_hex (demux [lit "42AAAACAFEBABE"])) = 8 /\
  unhexlify (header_hex (demux [lit "42AAAACAFEBABE"])) =
    Decoded [xca; xfe; xba; xbe] /\
  length [xca; xfe; xba; xbe] <> 2 * 8 /\
  header_byte_count (demux [lit "42AAAACAFEBABE"]) = 4.
Proof. repeat split. discriminate. Qed.

(** C8.  Materialization of a channel text fails (no bytes come out of
    [unhexlify]) exactly when the text has odd length or holds a character
    that is not a hex digit; a text that decodes does so in full, two
    characters per byte, so an odd-length text is never truncated; for an
    ASCII text the failure is the [binascii.Error] that [parse_dump]
    reports; on a failure [parse_dump] never reaches the segmenter and
    saves no block; and the header text it reports is the header
    accumulator, whatever happens to the body. *)
Theorem materialization_fails_iff (lines : list str) (text : str) :
  ((forall bs, unhexlify text <> Decoded bs) <->
     (Nat.odd (length text) = true \/
      Exists (fun c => is_hex c = false) text)) /\
  (forall bs, unhexlify text = Decoded bs -> length text = 2 * length bs) /\
  (forallb is_ascii text = true ->
   (forall bs, unhexlify text <> Decoded bs) ->
   unhexlify text = BinasciiError) /\
  ((forall bs, unhexlify (body_hex (demux lines)) <> Decoded bs) ->
   saved_blocks (parse_dump lines) = None) /\
  (forall bs, unhexlify (body_hex (demux lines)) = Decoded bs ->
   parse_dump lines = Dumped (header_hex (demux lines)) bs (segment bs)) /\
  reported_header (parse_dump lines) = header_hex (demux lines).
Proof.
  split; [apply unhexlify_fails|].
  split; [intros bs H; apply unhexlify_Decoded in H;
          now apply a2b_hex_Some|].
  split; [apply unhexlify_ascii_fails|].
  unfold parse_dump.
  destruct (unhexlify (body_hex (demux lines))) as [b| |];
    cbn [saved_blocks reported_header];
    (split; [|split; [|reflexivity]]).
  - intros H. now destruct (H b).
  - intros bs [= ->]. reflexivity.
  - reflexivity.
  - intros bs [=].
  - reflexivity.
  - intros bs [=].
Qed.

Lemma materialization_fails_iff_witness :
  saved_blocks (parse_dump [lit "44AAAAFFFFF"]) = None /\
  reported_header (parse_dump [lit "42AAAACAFEBABE"; lit "44AAAAFFFFF"]) =
    lit "CAFEBABE" /\
  unhexlify (lit "FFFFF") = BinasciiError /\
  unhexlify (lit "FFFG") = BinasciiError.
Proof.
  pose proof (materialization_fails_iff [lit "44AAAAFFFFF"] (lit "FFFFF"))
    as (Hiff & _ & Hascii & Hnone & _ & _).
  pose proof (materialization_fails_iff
                [lit "42AAAACAFEBABE"; lit "44AAAAFFFFF"] (lit "FFFG"))
    as (Hiff' & _ & Hascii' & _ & _ & Hheader).
  assert (Hfail : forall bs, unhexlify (lit "FFFFF") <> Decoded bs)
    by (apply Hiff; left; reflexivity).
  assert (Hfail' : forall bs, unhexlify (lit "FFFG") <> Decoded bs)
    by (apply Hiff'; right; do 3 right; left; reflexivity).
  split; [|split; [|split]].
  - apply Hnone. exact Hfail.
  - exact Hheader.
  - apply Hascii; [reflexivity | exact Hfail].
  - apply Hascii'; [reflexivity | exact Hfail'].
Defined.

(** ** Block segmenter: windows *)

Section Windows.

(** The hex test of the loop is equality with the filler pattern. *)
Lemma hex_of_byte_FF b :
  str_eqb (upper (hex_of_byte b)) (lit "FF") = Byte.eqb b xff.
Proof. destruct b; reflexivity. Qed.

Lemma upper_hex_cons b bs :
  upper (hex (b :: bs)) = upper (hex_of_byte b) ++ upper (hex bs).
Proof. unfold upper, hex. cbn [flat_map]. apply map_app. Qed.

Lemma str_eqb_two (x y : ascii) (s : str) (c d : ascii) (t : str) :
  str_eqb ([x; y] ++ s) (c :: d :: t) =
  str_eqb [x; y] [c; d] && str_eqb s t.
Proof.
  cbn [app str_eqb].
  destruct (Ascii.eqb x c), (Ascii.eqb y d); reflexivity.
Qed.

Lemma upper_hex_FFs : forall chunk n,
  str_eqb (upper (hex chunk)) (concat (repeat (lit "FF") n)) =
  bytes_eqb chunk (repeat xff n).
Proof.
  induction chunk as [|b chunk IH]; intros [|n]; try reflexivity.
  rewrite upper_hex_cons. cbn [repeat concat bytes_eqb].
  rewrite <- IH, <- hex_of_byte_FF.
  change (upper (hex_of_byte b))
    with [upper_char (hex_char (Byte.to_N b / 16));
          upper_char (hex_char (Byte.to_N b mod 16))].
  apply str_eqb_two.
Qed.

Lemma is_padding_filler chunk : is_padding chunk = bytes_eqb chunk filler.
Proof. exact (upper_hex_FFs chunk 6). Qed.

Lemma is_padding_true chunk : is_padding chunk = true <-> chunk = filler.
Proof. rewrite is_padding_filler. apply bytes_eqb_eq. Qed.

Lemma is_padding_false chunk : is_padding chunk = false <-> chunk <> filler.
Proof. rewrite is_padding_filler. apply bytes_eqb_neq. Qed.

Lemma is_padding_short chunk : length chunk <> 6 -> is_padding chunk = false.
Proof.
  intros H. apply is_padding_false. intros ->. now apply H.
Qed.

(** The loop visits the windows in order. *)
Lemma fold_left_map_windows (A B S : Type) (f : S -> B -> S) (g : A -> B) :
  forall l st,
    fold_left (fun st i => f st (g i)) l st = fold_left f (map g l) st.
Proof. induction l as [|a l IH]; intros st; simpl; auto. Qed.

Lemma seg_loop_windows data :
  seg_loop data = fold_left seg_step (windows data) seg_init.
Proof. unfold seg_loop, windows. apply fold_left_map_windows. Qed.

(** Number of windows of a sequence of [n] bytes. *)
Lemma window_count n : 0 < n -> (n + 5) / 6 = S ((n - 6 + 5) / 6).
Proof.
  intros Hn. destruct (le_lt_dec 6 n) as [Hge | Hlt].
  - replace (n + 5) with ((n - 6 + 5) + 1 * 6) by lia.
    rewrite Nat.div_add by lia. lia.
  - replace (n - 6 + 5) with 5 by lia.
    symmetry. apply (Nat.div_unique (n + 5) 6 1 (n - 1)); lia.
Qed.

Lemma windows_nil : windows [] = [].
Proof. reflexivity. Qed.

Lemma windows_step data :
  data <> [] -> windows data = firstn 6 data :: windows (skipn 6 data).
Proof.
  intros Hne. unfold windows, range.
  rewrite length_skipn, !Nat.sub_0_r.
  change (6 - 1) with 5.
  rewrite window_count by (destruct data; [congruence | simpl; lia]).
  rewrite <- cons_seq, <- seq_shift. cbn [map].
  change (slice data (0 + 0 * 6) (0 + 0 * 6 + 6)) with (firstn 6 data).
  f_equal.
  rewrite !map_map. apply map_ext. intros k. unfold slice.
  rewrite skipn_skipn.
  replace (0 + S k * 6) with (0 + k * 6 + 6) by lia.
  f_equal. lia.
Qed.

(** Induction along the window partition. *)
Lemma windows_ind (P : bytes -> Prop) :
  P [] ->
  (forall data, data <> [] -> P (skipn 6 data) -> P data) ->
  forall data, P data.
Proof.
  intros Hnil Hstep data.
  induction data as [data IH] using (induction_ltof1 _ (@length byte)).
  destruct data as [|b data]; [exact Hnil|].
  apply Hstep; [discriminate|].
  apply IH. unfold ltof. rewrite length_skipn. simpl. lia.
Qed.

Lemma concat_windows : forall data, concat (windows data) = data.
Proof.
  induction data as [|data Hne IH] using windows_ind; [reflexivity|].
  rewrite windows_step by assumption. cbn [concat].
  rewrite IH. apply firstn_skipn.
Qed.

Lemma windows_app a b :
  length a = 6 -> windows (a ++ b) = a :: windows b.
Proof.
  intros Ha. rewrite windows_step.
  - rewrite firstn_app, skipn_app, Ha, Nat.sub_diag.
    rewrite firstn_all2, skipn_all2 by lia.
    cbn [firstn skipn app]. now rewrite app_nil_r.
  - destruct a; [discriminate | discriminate].
Qed.

Lemma windows_short a :
  0 < length a <= 6 -> windows a = [a].
Proof.
  intros Ha.
  rewrite windows_step by (destruct a; [simpl in Ha; lia | discriminate]).
  now rewrite firstn_all2, skipn_all2 by lia.
Qed.

End Windows.

(** ** Block segmenter: the state machine *)

Section Segmenter.

Lemma windows_nonempty :
  forall data, Forall (fun w => w <> []) (windows data).
Proof.
  induction data as [|data Hne IH] using windows_ind; [constructor|].
  rewrite windows_step by assumption. constructor; [|exact IH].
  destruct data; [congruence | discriminate].
Qed.

Lemma windows_chunked : forall data, chunked (windows data).
Proof.
  induction data as [|data Hne IH] using windows_ind; [constructor|].
  rewrite windows_step by assumption.
  destruct (le_lt_dec (length data) 6) as [Hle | Hgt].
  - rewrite skipn_all2, firstn_all2 by lia. rewrite windows_nil.
    apply chunked_last. destruct data; [congruence | simpl in *; lia].
  - apply chunked_cons; [rewrite length_firstn; lia | | exact IH].
    rewrite windows_step; [discriminate|].
    intros E. apply (f_equal (@length _)) in E.
    rewrite length_skipn in E. simpl in E. lia.
Qed.

Lemma chunked_app_l : forall a b, chunked (a ++ b) -> chunked a.
Proof.
  induction a as [|w a IH]; intros b H; [constructor|].
  inversion H as [| w' Hw | w' ws Hw Hne Hch]; subst.
  - destruct a; [|discriminate]. now apply chunked_last.
  - destruct a as [|w2 a].
    + apply chunked_last. lia.
    + apply chunked_cons; [assumption | discriminate | eapply IH; eassumption].
Qed.

Lemma chunked_app_r : forall a b, chunked (a ++ b) -> chunked b.
Proof.
  induction a as [|w a IH]; intros b H; [exact H|].
  inversion H as [| w' Hw | w' ws Hw Hne Hch]; subst.
  - match goal with E : [] = a ++ b |- _ =>
      symmetry in E; apply app_eq_nil in E as [_ ->] end.
    constructor.
  - now apply IH.
Qed.

Lemma windows_concat : forall ws, chunked ws -> windows (concat ws) = ws.
Proof.
  induction 1 as [| w Hw | w ws Hw Hne Hch IH].
  - reflexivity.
  - cbn [concat]. rewrite app_nil_r. now apply windows_short.
  - cbn [concat]. rewrite windows_app by assumption. now rewrite IH.
Qed.

(** What the loop and the final flush produce from any state, when no
    window it still has to read is the filler. *)
Lemma seg_fold_data : forall ws st,
  Forall (fun w => w <> filler) ws ->
  fold_left seg_step ws st =
    match ws with
    | [] => st
    | _ :: _ => SegState (unique_data_chunks st)
                         (current_chunk st ++ concat ws) true
    end.
Proof.
  induction ws as [|w ws IH]; intros st H; [reflexivity|].
  inversion H as [|? ? Hw Hws]; subst.
  cbn [fold_left]. rewrite (IH _ Hws). unfold seg_step.
  apply is_padding_false in Hw. rewrite Hw.
  destruct ws; cbn [concat unique_data_chunks current_chunk].
  - now rewrite app_nil_r.
  - now rewrite <- app_assoc.
Qed.

Lemma segment_data_only ws :
  chunked ws -> ws <> [] -> Forall (fun w => w <> filler) ws ->
  segment (concat ws) = [concat ws].
Proof.
  intros Hch Hne Hdata. unfold segment.
  rewrite seg_loop_windows, (windows_concat Hch), (seg_fold_data _ Hdata).
  destruct ws as [|w ws]; [congruence|].
  unfold seg_flush. cbn [current_chunk unique_data_chunks seg_init app].
  assert (Hw : w <> []).
  { inversion Hch; subst; destruct w; simpl in *; try lia; discriminate. }
  cbn [concat]. destruct w; [congruence | reflexivity].
Qed.

End Segmenter.

(** ** Block segmenter: what is emitted *)

Section Blocks.

Lemma seg_ok_init : seg_ok seg_init.
Proof. split; [discriminate | intros H; now destruct H]. Qed.

Lemma seg_step_ok st w : w <> [] -> seg_ok st -> seg_ok (seg_step st w).
Proof.
  intros Hw Hok. unfold seg_step.
  destruct (is_padding w); [destruct (in_data st) eqn:E|].
  - split; [discriminate | intros H; now destruct H].
  - exact Hok.
  - split; [|reflexivity]. intros _. cbn [current_chunk].
    destruct w; [congruence|].
    intros E. now apply app_eq_nil in E as [_ E].
Qed.

(** Emitted bytes, in order: the closed blocks, the open block, then the
    non-filler windows still to be read. *)
Lemma seg_fold_concat : forall ws st,
  concat (seg_flush (fold_left seg_step ws st)) =
    concat (unique_data_chunks st) ++ current_chunk st ++
    concat (data_windows ws).
Proof.
  induction ws as [|w ws IH]; intros st.
  - cbn [fold_left data_windows filter concat]. unfold seg_flush.
    destruct (current_chunk st) as [|c cur].
    + now rewrite app_nil_r.
    + rewrite concat_app. cbn [concat]. now rewrite !app_nil_r.
  - cbn [fold_left]. rewrite IH. unfold seg_step, data_windows.
    cbn [filter]. rewrite is_padding_filler.
    destruct (bytes_eqb w filler); cbn [negb].
    + destruct (in_data st); [|reflexivity].
      cbn [unique_data_chunks current_chunk].
      rewrite concat_app. cbn [concat app].
      now rewrite app_nil_r, <- app_assoc.
    + cbn [unique_data_chunks current_chunk concat].
      now rewrite <- app_assoc.
Qed.

(** Emitted blocks, counted. *)
Lemma seg_fold_count : forall ws st,
  Forall (fun w => w <> []) ws -> seg_ok st ->
  length (seg_flush (fold_left seg_step ws st)) =
    length (unique_data_chunks st)
    + (if in_data st then 1 else 0)
    + count_runs (in_data st) ws.
Proof.
  induction ws as [|w ws IH]; intros st Hne Hok.
  - cbn [fold_left count_runs]. unfold seg_flush.
    destruct Hok as [Hok1 Hok2].
    destruct (current_chunk st) as [|c cur].
    + destruct (in_data st); [now destruct Hok1 | lia].
    + rewrite Hok2 by discriminate. rewrite length_app. simpl. lia.
  - inversion Hne as [|? ? Hw Hws]; subst.
    cbn [fold_left count_runs].
    rewrite IH by (auto using seg_step_ok).
    unfold seg_step. rewrite is_padding_filler.
    destruct (bytes_eqb w filler); destruct (in_data st) eqn:Ein;
      cbn [unique_data_chunks in_data]; rewrite ?Ein, ?length_app;
      simpl; lia.
Qed.

(** Emitted blocks, one by one: each is a maximal run of the partition
    [W] the loop is reading.  [done] is what has been read and closed,
    [cur] the windows of the open block, [ws] what is left. *)
Lemma seg_fold_runs (W : list bytes) : forall ws done cur st,
  W = done ++ cur ++ ws ->
  (done = [] \/ exists done', done = done' ++ [filler]) ->
  Forall (fun w => w <> filler) cur ->
  Forall (fun w => w <> []) (cur ++ ws) ->
  current_chunk st = concat cur ->
  in_data st = match cur with [] => false | _ :: _ => true end ->
  Forall (maximal_run W) (unique_data_chunks st) ->
  Forall (maximal_run W) (seg_flush (fold_left seg_step ws st)).
Proof.
  induction ws as [|w ws IH];
    intros done cur st HW Hdone Hdata Hne Hcur Hin Hruns.
  - cbn [fold_left]. unfold seg_flush. rewrite Hcur.
    destruct cur as [|c cur]; [exact Hruns|].
    inversion Hne as [|? ? Hc _]; subst.
    destruct c as [|x c]; [congruence|]. cbn [concat app].
    apply Forall_app; split; [exact Hruns|].
    constructor; [|constructor].
    exists done, ((x :: c) :: cur), []. repeat split; auto.
    discriminate.
  - apply Forall_app in Hne as [Hnecur Hnews].
    inversion Hnews as [|? ? Hw Hws]; subst.
    cbn [fold_left]. unfold seg_step.
    destruct (is_padding w) eqn:Ew.
    + apply is_padding_true in Ew; subst w. rewrite Hin.
      destruct cur as [|c cur].
      * apply (IH (done ++ [filler]) []); auto.
        -- now rewrite <- app_assoc.
        -- right. now exists done.
      * apply (IH (done ++ (c :: cur) ++ [filler]) []); auto.
        -- now rewrite <- !app_assoc.
        -- right. exists (done ++ c :: cur). now rewrite <- app_assoc.
        -- cbn [unique_data_chunks]. apply Forall_app; split; [exact Hruns|].
           constructor; [|constructor]. rewrite Hcur.
           exists done, (c :: cur), (filler :: ws).
           repeat split; auto; [discriminate | right; now exists ws].
    + apply is_padding_false in Ew.
      apply (IH done (cur ++ [w])).
      * now rewrite <- app_assoc.
      * exact Hdone.
      * apply Forall_app; split; [exact Hdata | now constructor].
      * rewrite <- app_assoc. apply Forall_app; split; [exact Hnecur|].
        now constructor.
      * cbn [current_chunk]. rewrite Hcur, concat_app. cbn [concat].
        now rewrite app_nil_r.
      * cbn [in_data]. now destruct cur.
      * exact Hruns.
Qed.

End Blocks.

Section BlockClaims.

Lemma segment_runs data : Forall (maximal_run (windows data)) (segment data).
Proof.
  unfold segment. rewrite seg_loop_windows.
  apply (@seg_fold_runs (windows data) (windows data) [] []).
  - reflexivity.
  - now left.
  - constructor.
  - apply windows_nonempty.
  - reflexivity.
  - reflexivity.
  - constructor.
Qed.

Lemma maximal_run_chunked data b :
  maximal_run (windows data) b ->
  exists ws, b = concat ws /\ ws <> [] /\ chunked ws /\
             Forall (fun w => w <> filler) ws.
Proof.
  intros (pre & ws & post & HW & Hne & Hb & Hdata & _).
  exists ws. repeat split; auto.
  pose proof (windows_chunked data) as Hch. rewrite HW in Hch.
  eapply chunked_app_l, chunked_app_r, Hch.
Qed.

Lemma maximal_run_contiguous data b :
  maximal_run (windows data) b ->
  b <> [] /\ exists before after, data = before ++ b ++ after.
Proof.
  intros (pre & ws & post & HW & Hne & Hb & _). split.
  - pose proof (windows_nonempty data) as Hall. rewrite HW in Hall.
    apply Forall_app in Hall as [_ Hall].
    apply Forall_app in Hall as [Hall _].
    destruct ws as [|w ws]; [congruence|].
    inversion Hall as [|? ? Hw _]; subst.
    destruct w; [congruence | discriminate].
  - exists (concat pre), (concat post).
    rewrite <- (concat_windows data), HW, !concat_app. now subst b.
Qed.

(** Closed blocks stay: the loop and the flush only append to the list. *)
Lemma seg_fold_keeps : forall ws st,
  exists more,
    seg_flush (fold_left seg_step ws st) = unique_data_chunks st ++ more.
Proof.
  induction ws as [|w ws IH]; intros st.
  - cbn [fold_left]. unfold seg_flush.
    destruct (current_chunk st) as [|c cur];
      [exists []; now rewrite app_nil_r | eexists; reflexivity].
  - cbn [fold_left]. destruct (IH (seg_step st w)) as [more ->].
    unfold seg_step.
    destruct (is_padding w); [destruct (in_data st)|];
      cbn [unique_data_chunks]; [|eauto ..].
    exists ([current_chunk st] ++ more). now rewrite app_assoc.
Qed.

Lemma seg_fold_ok : forall ws st,
  Forall (fun w => w <> []) ws -> seg_ok st ->
  seg_ok (fold_left seg_step ws st).
Proof.
  induction ws as [|w ws IH]; intros st Hne Hok; [exact Hok|].
  inversion Hne; subst. cbn [fold_left]. auto using seg_step_ok.
Qed.

(** A filler window leaves the machine idle. *)
Lemma seg_step_filler st :
  seg_ok st ->
  current_chunk (seg_step st filler) = [] /\
  in_data (seg_step st filler) = false.
Proof.
  intros [Hok1 Hok2]. unfold seg_step.
  replace (is_padding filler) with true by reflexivity.
  destruct (in_data st) eqn:E; [split; reflexivity|].
  split; [|exact E].
  destruct (current_chunk st); [reflexivity|].
  discriminate Hok2. discriminate.
Qed.

(** Where a maximal run can start, the machine is idle. *)
Lemma seg_idle_before pre :
  Forall (fun w => w <> []) pre ->
  (pre = [] \/ exists pre', pre = pre' ++ [filler]) ->
  current_chunk (fold_left seg_step pre seg_init) = [] /\
  in_data (fold_left seg_step pre seg_init) = false.
Proof.
  intros Hne [-> | [pre' ->]]; [split; reflexivity|].
  rewrite fold_left_app. cbn [fold_left].
  apply seg_step_filler, seg_fold_ok; [|apply seg_ok_init].
  now apply Forall_app in Hne as [Hne _].
Qed.

(** Every maximal run of the partition is emitted. *)
Lemma segment_complete data b :
  maximal_run (windows data) b -> In b (segment data).
Proof.
  intros (pre & ws & post & HW & Hne & Hb & Hdata & Hpre & Hpost).
  pose proof (windows_nonempty data) as Hall. rewrite HW in Hall.
  apply Forall_app in Hall as [Hnepre Hall].
  apply Forall_app in Hall as [Hnews _].
  destruct (seg_idle_before Hnepre Hpre) as [Hcur Hin].
  unfold segment. rewrite seg_loop_windows, HW, !fold_left_app.
  rewrite (seg_fold_data _ Hdata).
  destruct ws as [|w ws]; [congruence|]. rewrite Hcur. cbn [app].
  assert (Hbne : exists x b', b = x :: b').
  { inversion Hnews as [|? ? Hw _]; subst.
    destruct w as [|x w]; [congruence|]. cbn [concat app]. eauto. }
  destruct Hpost as [-> | [post' ->]].
  - cbn [fold_left]. unfold seg_flush.
    cbn [current_chunk unique_data_chunks]. rewrite <- Hb.
    destruct Hbne as (x & b' & ->). apply in_or_app. right. now left.
  - cbn [fold_left]. unfold seg_step at 2.
    replace (is_padding filler) with true by reflexivity.
    cbn [in_data current_chunk unique_data_chunks]. rewrite <- Hb.
    match goal with |- In b (seg_flush (fold_left seg_step post' ?st)) =>
      destruct (seg_fold_keeps post' st) as [more ->] end.
    cbn [unique_data_chunks].
    apply in_or_app. left. apply in_or_app. right. now left.
Qed.

End BlockClaims.

(** C2.  The blocks the segmenter emits are exactly the maximal runs of
    consecutive non-filler windows of the partition of its input: windows
    none of which is the filler, with a filler window or an end of the
    input on either side.  Every block is a non-empty, contiguous slice of
    the input; the emitted bytes are the non-filler windows in their
    original order; and there are as many blocks as maximal runs. *)
Theorem segment_blocks_are_maximal_runs (data : bytes) :
  (forall b, In b (segment data) <-> maximal_run (windows data) b) /\
  Forall (fun b =>
            b <> [] /\ exists before after, data = before ++ b ++ after)
         (segment data) /\
  concat (segment data) = concat (data_windows (windows data)) /\
  length (segment data) = count_runs false (windows data).
Proof.
  split; [|split; [|split]].
  - intros b. split; [|apply segment_complete].
    pose proof (segment_runs data) as Hruns.
    rewrite Forall_forall in Hruns. apply Hruns.
  - eapply Forall_impl; [|apply segment_runs].
    intros b Hb. now apply maximal_run_contiguous.
  - unfold segment. rewrite seg_loop_windows, seg_fold_concat. reflexivity.
  - unfold segment. rewrite seg_loop_windows, seg_fold_count;
      [reflexivity | apply windows_nonempty | apply seg_ok_init].
Qed.

(** C3.  Segmenting an emitted block gives that block back, alone and
    unchanged. *)
Theorem segment_idempotent_on_blocks (data B : bytes) :
  In B (segment data) -> segment B = [B].
Proof.
  intros Hin.
  pose proof (segment_runs data) as Hruns.
  rewrite Forall_forall in Hruns.
  destruct (@maximal_run_chunked data B (Hruns B Hin))
    as (ws & -> & Hne & Hch & Hd).
  now apply segment_data_only.
Qed.

Lemma segment_idempotent_on_blocks_witness :
  segment [xc2; x00; x12; x34; x00; x00; x01] =
  [[xc2; x00; x12; x34; x00; x00; x01]].
Proof.
  apply (@segment_idempotent_on_blocks
           (filler ++ [xc2; x00; x12; x34; x00; x00; x01])).
  vm_compute. left. reflexivity.
Defined.

(** C5, amended.  A non-empty byte sequence with no filler window is
    emitted as exactly one block, the whole input; the empty sequence has
    no window at all and yields no block. *)
Theorem segment_without_filler (data : bytes) :
  Forall (fun w => w <> filler) (windows data) ->
  segment data = match data with [] => [] | _ :: _ => [data] end.
Proof.
  intros Hdata. destruct data as [|b data]; [reflexivity|].
  pose proof (@segment_data_only (windows (b :: data))
                (windows_chunked _)) as H.
  rewrite concat_windows in H. apply H; [|exact Hdata].
  rewrite windows_step; discriminate.
Qed.

Lemma segment_without_filler_witness :
  segment [xc2; x00; x12; x34; x00; x00; xff; xff] =
  [[xc2; x00; x12; x34; x00; x00; xff; xff]].
Proof.
  apply (@segment_without_filler [xc2; x00; x12; x34; x00; x00; xff; xff]).
  vm_compute. repeat constructor; discriminate.
Defined.

(** C5 as stated fails on the empty input: it has no filler window, and
    the segmenter emits no block for it, not the one empty block. *)
Lemma segment_empty_input :
  Forall (fun w => w <> filler) (windows []) /\
  segment [] = [] /\ segment [] <> [[]].
Proof. split; [constructor | split; [reflexivity | discriminate]]. Qed.

Section ShortTail.

Lemma windows_whole : forall k a b,
  length a = 6 * k -> windows (a ++ b) = windows a ++ windows b.
Proof.
  induction k as [|k IH]; intros a b Ha.
  - destruct a; [reflexivity | simpl in Ha; lia].
  - rewrite <- (firstn_skipn 6 a) at 1. rewrite <- app_assoc.
    rewrite windows_app by (rewrite length_firstn; lia).
    rewrite IH by (rewrite length_skipn; lia).
    rewrite (@windows_step a); [reflexivity|].
    intros ->. simpl in Ha. lia.
Qed.

Lemma whole_windows_length data :
  length (whole_windows data) = 6 * (length data / 6).
Proof.
  unfold whole_windows. rewrite length_firstn.
  pose proof (Nat.Div0.mul_div_le (length data) 6). lia.
Qed.

Lemma short_tail_length data :
  length (short_tail data) = length data mod 6.
Proof.
  unfold short_tail. rewrite length_skipn.
  pose proof (Nat.div_mod_eq (length data) 6). lia.
Qed.

Lemma whole_and_tail data : whole_windows data ++ short_tail data = data.
Proof. apply firstn_skipn. Qed.

End ShortTail.

(** C6.  When the length of the input is not a multiple of 6, the last
    window is the short tail left after the full windows; having fewer
    than 6 bytes it never passes the filler test, so the loop appends it
    to the open block (which it opens if none is), and the final flush
    emits that block.  In particular one filler window followed by 1 to 5
    bytes 0xFF yields exactly one block, the short tail (and no block
    when nothing follows). *)
Theorem short_tail_is_not_filler :
  (forall data : bytes,
     length data mod 6 <> 0 ->
     windows data = windows (whole_windows data) ++ [short_tail data] /\
     0 < length (short_tail data) < 6 /\
     is_padding (short_tail data) = false /\
     seg_loop data =
       SegState (unique_data_chunks (seg_loop (whole_windows data)))
                (current_chunk (seg_loop (whole_windows data))
                 ++ short_tail data)
                true /\
     segment data =
       unique_data_chunks (seg_loop (whole_windows data)) ++
       [current_chunk (seg_loop (whole_windows data)) ++ short_tail data]) /\
  (forall k, k < 6 ->
     segment (filler ++ repeat xff k) =
       match k with 0 => [] | S _ => [repeat xff k] end).
Proof.
  split.
  - intros data Hmod.
    pose proof (short_tail_length data) as Hlen.
    pose proof (Nat.mod_upper_bound (length data) 6) as Hup.
    assert (Hw : windows data =
                 windows (whole_windows data) ++ [short_tail data]).
    { rewrite <- (whole_and_tail data) at 1.
      rewrite windows_whole with (k := length data / 6)
        by apply whole_windows_length.
      now rewrite (@windows_short (short_tail data)) by lia. }
    assert (Hpad : is_padding (short_tail data) = false)
      by (apply is_padding_short; lia).
    assert (Hloop : seg_loop data =
       SegState (unique_data_chunks (seg_loop (whole_windows data)))
                (current_chunk (seg_loop (whole_windows data))
                 ++ short_tail data) true).
    { rewrite (seg_loop_windows data), Hw, fold_left_app.
      rewrite <- seg_loop_windows. cbn [fold_left].
      unfold seg_step at 1. now rewrite Hpad. }
    repeat split; auto; try lia.
    unfold segment. rewrite Hloop. unfold seg_flush.
    cbn [current_chunk unique_data_chunks].
    destruct (current_chunk (seg_loop (whole_windows data)) ++ short_tail data)
      eqn:E; [|reflexivity].
    apply app_eq_nil in E as [_ E]. rewrite E in Hlen.
    cbn [length] in Hlen. lia.
  - intros k Hk.
    assert (Hcases : k = 0 \/ k = 1 \/ k = 2 \/ k = 3 \/ k = 4 \/ k = 5)
      by lia.
    destruct Hcases as [-> | [-> | [-> | [-> | [-> | ->]]]]]; reflexivity.
Qed.

Lemma short_tail_is_not_filler_witness :
  segment ([xc2; x00; x12; x34; x00; x00] ++ [xff; xff; xff]) =
    [[xc2; x00; x12; x34; x00; x00; xff; xff; xff]] /\
  segment (filler ++ [xff; xff; xff]) = [[xff; xff; xff]].
Proof.
  destruct short_tail_is_not_filler as [Hrule Hfiller]. split.
  - destruct (Hrule ([xc2; x00; x12; x34; x00; x00] ++ [xff; xff; xff]))
      as (_ & _ & _ & _ & Hseg); [vm_compute; lia | exact Hseg].
  - apply (Hfiller 3). lia.
Defined.

(** ** Sample extractor *)

Section Extractor.

Lemma slice_length (A : Type) (s : list A) i j :
  length (slice s i j) = Nat.min (j - i) (length s - i).
Proof. unfold slice. now rewrite length_firstn, length_skipn. Qed.

Lemma unpack_H_two b :
  length b = 2 -> exists v, unpack_H b = Some v /\ (0 <= v < 65536)%Z.
Proof.
  destruct b as [|lo [|hi [|x b]]]; try discriminate. intros _.
  eexists; split; [reflexivity|].
  pose proof (Byte.to_N_bounded lo). pose proof (Byte.to_N_bounded hi).
  lia.
Qed.

(** The loop guard, on natural numbers. *)
Lemma guard_lt i n :
  (Z.of_nat i <? Z.of_nat n - 4)%Z = true <-> i + 4 < n.
Proof. rewrite Z.ltb_lt. lia. Qed.

(** The loop ends, and [struct.unpack] always gets its two bytes: with
    one unit of fuel per remaining offset the scan returns. *)
Lemma scan_returns : forall fuel data i samples,
  length data <= i + fuel + 4 ->
  exists l, scan fuel data i samples = Returns l.
Proof.
  induction fuel as [|fuel IH]; intros data i samples Hfuel; cbn [scan];
    destruct (Z.of_nat i <? Z.of_nat (length data) - 4)%Z eqn:G;
    try (eexists; reflexivity); apply guard_lt in G; [lia|].
  destruct (is_marker (slice data i (i + 2))).
  - destruct (@unpack_H_two (slice data (i + 2) (i + 4))) as (v & -> & _).
    + rewrite slice_length. lia.
    + apply IH. lia.
  - apply IH. lia.
Qed.

Lemma extract_samples_returns data :
  exists l, extract_samples data = Returns l.
Proof. apply scan_returns. lia. Qed.

(** A sample is only ever taken at an offset the guard lets through:
    strictly more than 4 bytes remain there. *)
Lemma scan_offsets : forall fuel data i samples l,
  scan fuel data i samples = Returns l ->
  Forall (fun s => offset s + 4 < length data) samples ->
  Forall (fun s => offset s + 4 < length data) l.
Proof.
  induction fuel as [|fuel IH]; intros data i samples l; cbn [scan];
    destruct (Z.of_nat i <? Z.of_nat (length data) - 4)%Z eqn:G;
    try discriminate; try (intros [= <-]; auto).
  apply guard_lt in G.
  destruct (is_marker (slice data i (i + 2))).
  - destruct (unpack_H (slice data (i + 2) (i + 4))); [|discriminate].
    intros H Hacc. eapply IH; [exact H|].
    apply Forall_app; split; [exact Hacc|]. now repeat constructor.
  - apply IH.
Qed.

Lemma extract_samples_offsets data l :
  extract_samples data = Returns l ->
  Forall (fun s => offset s + 4 < length data) l.
Proof. intros H. eapply scan_offsets; [exact H | constructor]. Qed.

End Extractor.

(** C7.  The loop guard is [i < len(data) - 4], strict: on every block
    the scan returns, and every sample it takes lies at an offset with
    more than 4 bytes remaining, so the last offset at which a marker and
    its value fit, [len(data) - 4], is never examined.  A block that is
    exactly one record yields no sample, and of the two records the
    source quotes from a real dump ([C2 00 DA 04 C2 00 28 05], values
    1242 and 1320) the second is lost; the scan that runs while a record
    fits finds them. *)
Theorem last_record_is_not_examined :
  (forall data, exists l,
     extract_samples data = Returns l /\
     Forall (fun s => offset s + 4 < length data) l) /\
  is_marker (slice [xc2; x00; x12; x34] 0 2) = true /\
  0 + 4 <= length [xc2; x00; x12; x34] /\
  extract_samples [xc2; x00; x12; x34] = Returns [] /\
  scan_fitting 4 [xc2; x00; x12; x34] 0 [] =
    Returns [Sample 0 (lit "c200") 13330 (scaled 13330)] /\
  extract_samples [xc2; x00; xda; x04; xc2; x00; x28; x05] =
    Returns [Sample 0 (lit "c200") 1242 (scaled 1242)] /\
  scan_fitting 8 [xc2; x00; xda; x04; xc2; x00; x28; x05] 0 [] =
    Returns [Sample 0 (lit "c200") 1242 (scaled 1242);
             Sample 4 (lit "c200") 1320 (scaled 1320)].
Proof.
  split.
  { intros data. destruct (extract_samples_returns data) as [l Hl].
    exists l. split; [exact Hl | now apply extract_samples_offsets]. }
  split; [reflexivity|]. split; [cbn [length]; lia|].
  repeat split.
Qed.

(** C1.  The three-line capture, stage by stage: the header channel is
    ["CAFEBABE"]; the body channel decodes to 18 bytes; these hold one
    block, [C2 00 12 34 00 00]; and that block holds one sample, at offset
    0, with marker [c200], raw value 13330 = 0x3412 and scaled value
    133.3. *)
Theorem three_line_capture :
  header_hex (demux three_lines) = lit "CAFEBABE" /\
  unhexlify (body_hex (demux three_lines)) =
    Decoded [xff; xff; xff; xff; xff; xff;
             xc2; x00; x12; x34; x00; x00;
             xff; xff; xff; xff; xff; xff] /\
  parse_dump three_lines =
    Dumped (lit "CAFEBABE")
           [xff; xff; xff; xff; xff; xff;
            xc2; x00; x12; x34; x00; x00;
            xff; xff; xff; xff; xff; xff]
           [[xc2; x00; x12; x34; x00; x00]] /\
  parse_logs [[xc2; x00; x12; x34; x00; x00]] =
    [Returns [Sample 0 (lit "c200") 13330 133.3%float]] /\
  13330%Z = 0x3412%Z.
Proof. repeat split. Qed.

(* ================================================================== *)
(** * Part III: further properties of the two files *)
(* ================================================================== *)

Unset Implicit Arguments.

(** ** Sample extractor: the loop, step by step *)

Section Scan.

Variable data : bytes.

(** The accumulator only collects: a scan is the scan from an empty list,
    appended. *)
Lemma scan_acc : forall fuel i acc,
  scan fuel data i acc =
    match scan fuel data i [] with
    | Returns l => Returns (acc ++ l)
    | StructError => StructError
    | OutOfFuel => OutOfFuel
    end.
Proof.
  induction fuel as [|fuel IH]; intros i acc; cbn [scan];
    destruct (Z.of_nat i <? Z.of_nat (length data) - 4)%Z;
    try reflexivity; try (now rewrite app_nil_r).
  destruct (is_marker (slice data i (i + 2))); [|apply IH].
  destruct (unpack_H (slice data (i + 2) (i + 4))) as [val|]; [|reflexivity].
  rewrite (IH (i + 4) (acc ++ _)), (IH (i + 4) ([] ++ _)).
  destruct (scan fuel data (i + 4) []); try reflexivity.
  cbn [app]. now rewrite <- app_assoc.
Qed.

Lemma scan_stop fuel i :
  length data <= i + 4 -> scan fuel data i [] = Returns [].
Proof.
  intros H. destruct fuel; cbn [scan];
    destruct (Z.of_nat i <? Z.of_nat (length data) - 4)%Z eqn:G;
    try reflexivity; apply guard_lt in G; lia.
Qed.

Lemma scan_marker fuel i val :
  i + 4 < length data ->
  is_marker (slice data i (i + 2)) = true ->
  unpack_H (slice data (i + 2) (i + 4)) = Some val ->
  scan (S fuel) data i [] =
    run_cons (Sample i (hex (slice data i (i + 2))) val (scaled val))
             (scan fuel data (i + 4) []).
Proof.
  intros G Hm Hv. apply guard_lt in G. cbn [scan]. rewrite G, Hm, Hv.
  rewrite scan_acc. unfold run_cons.
  now destruct (scan fuel data (i + 4) []).
Qed.

Lemma scan_skip fuel i :
  i + 4 < length data ->
  is_marker (slice data i (i + 2)) = false ->
  scan (S fuel) data i [] = scan fuel data (i + 1) [].
Proof.
  intros G Hm. apply guard_lt in G. cbn [scan]. now rewrite G, Hm.
Qed.

Lemma scan_no_fuel i :
  i + 4 < length data -> scan 0 data i [] = OutOfFuel.
Proof. intros G. apply guard_lt in G. cbn [scan]. now rewrite G. Qed.

Lemma value_bytes i :
  i + 4 < length data ->
  exists val, unpack_H (slice data (i + 2) (i + 4)) = Some val /\
              (0 <= val < 65536)%Z.
Proof.
  intros G. apply unpack_H_two. rewrite slice_length. lia.
Qed.

Lemma marker_hex m :
  is_marker m = true ->
  hex m = lit "c200" \/ hex m = lit "c300" \/ hex m = lit "c400".
Proof.
  unfold is_marker. rewrite !orb_true_iff, !bytes_eqb_eq.
  intros [[-> | ->] | ->]; auto.
Qed.

(** Case analysis on one iteration, for a scan that returns. *)
Lemma scan_cases fuel i l :
  scan fuel data i [] = Returns l ->
  (length data <= i + 4 /\ l = []) \/
  (exists fuel', fuel = S fuel' /\ i + 4 < length data /\
     ((is_marker (slice data i (i + 2)) = false /\
       scan fuel' data (i + 1) [] = Returns l) \/
      (exists s l', l = s :: l' /\ offset s = i /\ decodes_at data s /\
                    scan fuel' data (i + 4) [] = Returns l'))).
Proof.
  intros H. destruct (le_lt_dec (length data) (i + 4)) as [Hle | Hlt].
  - left. rewrite scan_stop in H by assumption. now inversion H.
  - right. destruct fuel as [|fuel'];
      [rewrite scan_no_fuel in H by assumption; discriminate|].
    exists fuel'. repeat split; try assumption.
    destruct (is_marker (slice data i (i + 2))) eqn:Hm.
    + right. destruct (value_bytes i Hlt) as (val & Hv & Hrange).
      rewrite (scan_marker fuel' i val Hlt Hm Hv) in H. unfold run_cons in H.
      destruct (scan fuel' data (i + 4) []) as [l'| |]; try discriminate.
      inversion H; subst. eexists; eexists. split; [reflexivity|].
      split; [reflexivity|]. split; [|reflexivity].
      unfold decodes_at. cbn [offset marker raw_val depth_m].
      repeat split; auto; try lia. now apply marker_hex.
    + left. split; [reflexivity|]. now rewrite scan_skip in H.
Qed.

Lemma scan_sound : forall fuel i l,
  scan fuel data i [] = Returns l ->
  Forall (decodes_at data) l /\
  Forall (fun s => i <= offset s) l /\
  StronglySorted before l /\
  (l = [] \/ i + 4 * length l < length data).
Proof.
  induction fuel as [|fuel IH]; intros i l H;
    destruct (scan_cases _ _ _ H)
      as [[_ ->] | (fuel' & E & G & [[_ H'] | (s & l' & -> & Hs & Hd & H')])];
    try discriminate; try (now repeat constructor);
    inversion E; subst fuel';
    destruct (IH _ _ H') as (Hdec & Hlow & Hsort & Hlen);
    (split; [|split; [|split]]).
  - exact Hdec.
  - eapply Forall_impl; [|exact Hlow]. intros a Ha. simpl in Ha. lia.
  - exact Hsort.
  - destruct Hlen as [-> | Hlen]; [now left | right; lia].
  - now constructor.
  - constructor; [lia|].
    eapply Forall_impl; [|exact Hlow]. intros a Ha. simpl in Ha. lia.
  - constructor; [exact Hsort|].
    eapply Forall_impl; [|exact Hlow]. intros a Ha.
    unfold before. simpl in Ha. lia.
  - right. cbn [length]. destruct Hlen as [-> | Hlen]; simpl; lia.
Qed.

Lemma scan_complete : forall fuel i l,
  scan fuel data i [] = Returns l ->
  forall j, i <= j -> j + 4 < length data ->
    is_marker (slice data j (j + 2)) = true ->
    exists s, In s l /\ offset s <= j < offset s + 4.
Proof.
  induction fuel as [|fuel IH]; intros i l H j Hij Hj Hm;
    destruct (scan_cases _ _ _ H)
      as [[Hstop _]
         | (fuel' & E & G & [[Hno H'] | (s & l' & -> & Hs & Hd & H')])];
    try discriminate; try lia; inversion E; subst fuel'.
  - assert (i <> j) by (intros ->; congruence).
    apply (IH _ _ H' j); auto; lia.
  - destruct (le_lt_dec (i + 4) j) as [Hfar | Hnear].
    + destruct (IH _ _ H' j Hfar Hj Hm) as (s' & Hin & Hcover).
      exists s'. split; [now right | exact Hcover].
    + exists s. split; [now left | lia].
Qed.

(** More fuel changes nothing. *)
Lemma scan_more_fuel : forall fuel i l,
  scan fuel data i [] = Returns l ->
  forall fuel', fuel <= fuel' -> scan fuel' data i [] = Returns l.
Proof.
  induction fuel as [|fuel IH]; intros i l H fuel' Hf;
    destruct (scan_cases _ _ _ H)
      as [[Hstop ->] | (f & E & G & [[Hno H'] | (s & l' & -> & Hs & Hd & H')])];
    try discriminate; try (now apply scan_stop);
    inversion E; subst f;
    (destruct fuel' as [|fuel']; [lia|]).
  - rewrite scan_skip by assumption. apply (IH _ _ H'). lia.
  - destruct Hd as (_ & Hm & Hmk & _ & Hv & _ & Hsc).
    rewrite Hs in *. rewrite (scan_marker fuel' i _ G Hm Hv).
    rewrite (IH _ _ H' fuel') by lia. unfold run_cons.
    f_equal. f_equal. destruct s; cbn in *. now subst.
Qed.

End Scan.

Lemma slice_app_l (A : Type) (a b : list A) (i j : nat) :
  j <= length a -> slice (a ++ b) i j = slice a i j.
Proof.
  intros H. unfold slice. rewrite skipn_app, firstn_app, length_skipn.
  replace (j - i - (length a - i)) with 0 by lia.
  cbn [firstn]. apply app_nil_r.
Qed.

Lemma scan_prefix (data more : bytes) : forall fuel i l,
  scan fuel data i [] = Returns l ->
  forall fuel', length (data ++ more) <= i + fuel' + 4 ->
  exists l',
    scan fuel' (data ++ more) i [] = Returns (l ++ l') /\
    Forall (fun s => length data <= offset s + 4) l'.
Proof.
  induction fuel as [|fuel IH]; intros i l H fuel' Hfuel;
    destruct (scan_cases data _ _ _ H)
      as [[Hstop ->] | (f & E & G & [[Hno H'] | (s & l' & -> & Hs & Hd & H')])];
    try discriminate.
  1, 2: destruct (scan_returns fuel' (data ++ more) i [] Hfuel) as [l' Hl'];
    exists l'; split; [exact Hl'|];
    destruct (scan_sound _ _ _ _ Hl') as (_ & Hlow & _);
    eapply Forall_impl; [|exact Hlow]; intros a Ha; simpl in Ha; lia.
  - inversion E; subst f. rewrite length_app in Hfuel.
    destruct fuel' as [|fuel']; [lia|].
    rewrite scan_skip;
      [| rewrite length_app; lia | rewrite slice_app_l by lia; exact Hno].
    apply (IH _ _ H'). rewrite length_app. lia.
  - inversion E; subst f. rewrite length_app in Hfuel.
    destruct fuel' as [|fuel']; [lia|].
    destruct Hd as (_ & Hm & Hmk & _ & Hv & _ & Hsc). rewrite Hs in *.
    rewrite (scan_marker (data ++ more) fuel' i (raw_val s));
      [| rewrite length_app; lia | rewrite slice_app_l by lia; exact Hm
       | rewrite slice_app_l by lia; exact Hv].
    destruct (IH _ _ H' fuel') as (l'' & -> & Hl'');
      [rewrite length_app; lia|].
    exists l''. split; [|exact Hl'']. unfold run_cons. cbn [app].
    rewrite slice_app_l by lia.
    f_equal. f_equal. destruct s; cbn in *. now subst.
Qed.

(** X1.  On every block the scan ends without an error, after at most
    [len(data)] iterations, and each sample it returns is what the bytes
    at its offset decode to: more than 4 bytes remain there, the two bytes
    at the offset are one of the three markers and [marker] is their hex
    text, [raw_val] is the little-endian value of the next two bytes, a
    number below 65536, and [depth_m] is that value divided by 100. *)
Theorem extraction_is_sound (data : bytes) :
  exists l,
    extract_samples data = Returns l /\ Forall (decodes_at data) l.
Proof.
  destruct (extract_samples_returns data) as [l Hl]. exists l.
  split; [exact Hl|]. now apply (scan_sound data (length data) 0 l).
Qed.

(** X2.  The samples of a block come in increasing offset order and their
    4-byte records never overlap; a block of [n] bytes holds fewer than
    [n / 4] of them. *)
Theorem samples_never_overlap (data : bytes) (l : list sample) :
  extract_samples data = Returns l ->
  StronglySorted before l /\ (l = [] \/ 4 * length l < length data).
Proof.
  intros H. destruct (scan_sound data _ _ _ H) as (_ & _ & Hsort & Hlen).
  split; [exact Hsort | exact Hlen].
Qed.

Lemma samples_never_overlap_witness :
  StronglySorted before
    [Sample 0 (lit "c200") 1242 (scaled 1242);
     Sample 5 (lit "c300") 1320 (scaled 1320)] /\
  ([Sample 0 (lit "c200") 1242 (scaled 1242);
    Sample 5 (lit "c300") 1320 (scaled 1320)] = [] \/
   4 * 2 < 10).
Proof.
  apply (samples_never_overlap
           [xc2; x00; xda; x04; x00; xc3; x00; x28; x05; x00]).
  reflexivity.
Defined.

(** X3.  No marker in the scanned range is missed: every offset with more
    than 4 bytes remaining at which a marker stands lies inside the record
    of some sample.  So a block yields no sample exactly when no marker
    stands at such an offset. *)
Theorem every_marker_is_covered (data : bytes) (l : list sample) :
  extract_samples data = Returns l ->
  (forall j, j + 4 < length data ->
     is_marker (slice data j (j + 2)) = true ->
     exists s, In s l /\ offset s <= j < offset s + 4) /\
  (l = [] <->
   forall j, j + 4 < length data ->
     is_marker (slice data j (j + 2)) = false).
Proof.
  intros H.
  assert (Hcover : forall j, j + 4 < length data ->
     is_marker (slice data j (j + 2)) = true ->
     exists s, In s l /\ offset s <= j < offset s + 4).
  { intros j Hj Hm. apply (scan_complete data _ _ _ H j); auto. lia. }
  split; [exact Hcover|]. split.
  - intros -> j Hj.
    destruct (is_marker (slice data j (j + 2))) eqn:Hm; [|reflexivity].
    destruct (Hcover j Hj Hm) as (s & [] & _).
  - intros Hnone. destruct l as [|s l]; [reflexivity|].
    destruct (scan_sound data _ _ _ H) as (Hdec & _).
    inversion Hdec as [|? ? (Hs & Hm & _) _]; subst.
    rewrite (Hnone _ Hs) in Hm. discriminate.
Qed.

Lemma every_marker_is_covered_witness :
  exists s,
    In s [Sample 0 (lit "c200") 194 (scaled 194)] /\
    offset s <= 2 < offset s + 4.
Proof.
  destruct (every_marker_is_covered
              [xc2; x00; xc2; x00; x28; x05; x00]
              [Sample 0 (lit "c200") 194 (scaled 194)] eq_refl)
    as [Hcover _].
  apply Hcover; [cbn [length]; lia | reflexivity].
Defined.

(** X4.  The samples found in the first bytes of a block are found again,
    unchanged and first, when more bytes follow: extraction on
    [data ++ more] returns the samples of [data] followed by samples
    whose records end after the last 4 bytes of [data] begin. *)
Theorem extraction_extends (data more : bytes) (l : list sample) :
  extract_samples data = Returns l ->
  exists l',
    extract_samples (data ++ more) = Returns (l ++ l') /\
    Forall (fun s => length data <= offset s + 4) l'.
Proof.
  intros H. unfold extract_samples.
  apply (scan_prefix data more _ _ _ H). lia.
Qed.

Lemma extraction_extends_witness :
  exists l',
    extract_samples ([xc2; x00; xda; x04; x00] ++ [xc3; x00; x28; x05; x00])
      = Returns ([Sample 0 (lit "c200") 1242 (scaled 1242)] ++ l') /\
    Forall (fun s => 5 <= offset s + 4) l'.
Proof.
  apply (extraction_extends
           [xc2; x00; xda; x04; x00] [xc3; x00; x28; x05; x00]).
  reflexivity.
Defined.

(** ** Block segmenter: padding between and around the data *)

Section Padding.

(** Blocks already closed are carried along untouched. *)
Lemma seg_fold_closed : forall ws closed st,
  fold_left seg_step ws
    (SegState (closed ++ unique_data_chunks st)
              (current_chunk st) (in_data st)) =
  SegState
    (closed ++ unique_data_chunks (fold_left seg_step ws st))
    (current_chunk (fold_left seg_step ws st))
    (in_data (fold_left seg_step ws st)).
Proof.
  induction ws as [|w ws IH]; intros closed st; [reflexivity|].
  cbn [fold_left]. rewrite <- IH. f_equal.
  unfold seg_step. cbn [unique_data_chunks current_chunk in_data].
  destruct (is_padding w); [destruct (in_data st) eqn:E|];
    cbn [unique_data_chunks current_chunk in_data];
    rewrite ?E, ?app_assoc; reflexivity.
Qed.

Lemma seg_flush_closed closed st :
  seg_flush (SegState (closed ++ unique_data_chunks st)
                      (current_chunk st) (in_data st)) =
  closed ++ seg_flush st.
Proof.
  unfold seg_flush. cbn [unique_data_chunks current_chunk].
  destruct (current_chunk st); [reflexivity | now rewrite app_assoc].
Qed.

(** A filler window closes the open block, if there is one. *)
Lemma seg_step_closes st :
  seg_ok st -> seg_step st filler = SegState (seg_flush st) [] false.
Proof.
  intros [Hok1 Hok2]. unfold seg_step, seg_flush.
  replace (is_padding filler) with true by reflexivity.
  destruct st as [closed cur flag]. cbn in *.
  destruct cur as [|c cur].
  - destruct flag; [now destruct Hok1 | reflexivity].
  - now rewrite Hok2 by discriminate.
Qed.

Lemma seg_loop_ok data : seg_ok (seg_loop data).
Proof.
  rewrite seg_loop_windows.
  apply seg_fold_ok; [apply windows_nonempty | apply seg_ok_init].
Qed.

Lemma aligned_length (a : bytes) :
  length a mod 6 = 0 -> length a = 6 * (length a / 6).
Proof. intros H. pose proof (Nat.div_mod_eq (length a) 6). lia. Qed.

Lemma concat_fillers k : concat (repeat filler k) = repeat xff (6 * k).
Proof.
  induction k as [|k IH]; [reflexivity|].
  cbn [repeat concat]. rewrite IH.
  replace (6 * S k) with (6 + 6 * k) by lia.
  now rewrite repeat_app.
Qed.

Lemma count_runs_none : forall ws,
  count_runs false ws = 0 -> Forall (eq filler) ws.
Proof.
  induction ws as [|w ws IH]; intros H; [constructor|].
  cbn [count_runs] in H. destruct (bytes_eqb w filler) eqn:E.
  - apply bytes_eqb_eq in E. constructor; [now symmetry | now apply IH].
  - discriminate.
Qed.

Lemma concat_lengths : forall ws,
  length (concat ws) =
    length (concat (data_windows ws)) + 6 * filler_count ws.
Proof.
  induction ws as [|w ws IH]; [reflexivity|].
  unfold data_windows, filler_count in *. cbn [filter concat].
  destruct (bytes_eqb w filler) eqn:E; cbn [negb concat length];
    rewrite !length_app, ?IH.
  - apply bytes_eqb_eq in E. subst w. cbn [filler repeat length]. lia.
  - lia.
Qed.

(** A filler window at a window boundary separates. *)
Lemma segment_split (a b : bytes) :
  length a mod 6 = 0 ->
  segment (a ++ filler ++ b) = segment a ++ segment b.
Proof.
  intros Ha. apply aligned_length in Ha.
  unfold segment. rewrite !seg_loop_windows.
  rewrite windows_whole with (k := length a / 6) by exact Ha.
  rewrite windows_app by reflexivity.
  rewrite fold_left_app. cbn [fold_left].
  rewrite <- seg_loop_windows, seg_step_closes by apply seg_loop_ok.
  pose proof (seg_fold_closed (windows b) (seg_flush (seg_loop a)) seg_init)
    as H.
  cbn [seg_init unique_data_chunks current_chunk in_data] in H.
  rewrite app_nil_r in H. rewrite H.
  apply (seg_flush_closed _
           (fold_left seg_step (windows b) (SegState [] [] false))).
Qed.

Lemma segment_fillers k : segment (repeat xff (6 * k)) = [].
Proof.
  induction k as [|k IH]; [reflexivity|].
  replace (6 * S k) with (6 + 6 * k) by lia.
  rewrite repeat_app.
  change (repeat xff 6 ++ repeat xff (6 * k))
    with ([] ++ filler ++ repeat xff (6 * k)).
  rewrite segment_split by reflexivity. exact IH.
Qed.

End Padding.

(** X5.  A filler window at a window boundary separates: when the length
    of [a] is a multiple of 6, the blocks of [a ++ F ++ b] are the blocks
    of [a] followed by the blocks of [b].  In particular a leading or a
    trailing filler window changes nothing. *)
Theorem segment_across_filler (a b : bytes) :
  length a mod 6 = 0 ->
  segment (a ++ filler ++ b) = segment a ++ segment b /\
  segment (filler ++ b) = segment b /\
  segment (a ++ filler) = segment a.
Proof.
  intros Ha. split; [now apply segment_split|]. split.
  - apply (segment_split [] b). reflexivity.
  - pose proof (segment_split a [] Ha) as H.
    now rewrite !app_nil_r in H.
Qed.

Lemma segment_across_filler_witness :
  segment ([x01; x02; x03; x04; x05; x06] ++ filler ++ [x07; x08]) =
  [[x01; x02; x03; x04; x05; x06]] ++ [[x07; x08]].
Proof.
  apply (segment_across_filler [x01; x02; x03; x04; x05; x06] [x07; x08]).
  reflexivity.
Defined.

(** X6.  The segmenter finds no block exactly when its input is nothing
    but 0xFF bytes, in a number that is a multiple of 6 (the empty input
    included). *)
Theorem no_block_iff_all_filler (data : bytes) :
  segment data = [] <-> exists k, data = repeat xff (6 * k).
Proof.
  split.
  - intros H. apply (f_equal (@length _)) in H.
    unfold segment in H.
    rewrite seg_loop_windows, seg_fold_count in H
      by (apply windows_nonempty || apply seg_ok_init).
    cbn [seg_init unique_data_chunks in_data length Nat.add] in H.
    apply count_runs_none, Forall_eq_repeat in H.
    exists (length (windows data)).
    now rewrite <- concat_fillers, <- H, concat_windows.
  - intros [k ->]. apply segment_fillers.
Qed.

(** X7.  Nothing but filler windows is dropped: the bytes of the blocks
    and 6 bytes per filler window add up to the length of the input. *)
Theorem segment_conserves_bytes (data : bytes) :
  length data =
    length (concat (segment data)) + 6 * filler_count (windows data).
Proof.
  unfold segment. rewrite seg_loop_windows, seg_fold_concat.
  cbn [seg_init unique_data_chunks current_chunk concat app].
  rewrite <- concat_lengths. now rewrite concat_windows.
Qed.

(** ** Frame demultiplexer: what the accumulators depend on *)

Section Lines.

Lemma routed_app cmd l1 l2 :
  routed cmd (l1 ++ l2) = routed cmd l1 ++ routed cmd l2.
Proof. unfold routed. now rewrite filter_app, map_app. Qed.

Lemma routed_frames_of cmd lines :
  routed cmd lines = map frame_payload (frames_of cmd lines).
Proof. reflexivity. Qed.

Lemma frames_of_same cmd lines :
  frames_of cmd (frames_of cmd lines) = frames_of cmd lines.
Proof.
  unfold frames_of. induction lines as [|l lines IH]; [reflexivity|].
  cbn [filter].
  destruct (negb (too_short l) && str_eqb (frame_cmd l) cmd) eqn:E;
    [cbn [filter]; rewrite E; now f_equal | exact IH].
Qed.

Lemma frames_of_other cmd cmd' lines :
  cmd <> cmd' -> frames_of cmd (frames_of cmd' lines) = [].
Proof.
  intros Hne. unfold frames_of.
  induction lines as [|l lines IH]; [reflexivity|].
  cbn [filter].
  destruct (negb (too_short l) && str_eqb (frame_cmd l) cmd') eqn:E;
    [|exact IH].
  cbn [filter]. apply andb_true_iff in E as [_ E]. apply str_eqb_eq in E.
  destruct (str_eqb (frame_cmd l) cmd) eqn:E'.
  - apply str_eqb_eq in E'. congruence.
  - rewrite andb_false_r. exact IH.
Qed.

(** White space around a line is not seen. *)
Lemma lstrip_spaces a x :
  forallb isspace a = true -> lstrip (a ++ x) = lstrip x.
Proof.
  induction a as [|c a IH]; [reflexivity|]. cbn [forallb app lstrip].
  intros H. apply andb_true_iff in H as [-> H]. now apply IH.
Qed.

Lemma lstrip_app x b :
  lstrip (x ++ b) =
    match lstrip x with [] => lstrip b | _ :: _ => lstrip x ++ b end.
Proof.
  induction x as [|c x IH]; [reflexivity|]. cbn [app lstrip].
  destruct (isspace c); [exact IH | reflexivity].
Qed.

Lemma forallb_rev (A : Type) (f : A -> bool) (l : list A) :
  forallb f l = true -> forallb f (rev l) = true.
Proof.
  rewrite !forallb_forall. intros H x Hx. apply H. now apply in_rev.
Qed.

Lemma rstrip_spaces x b :
  forallb isspace b = true -> rstrip (x ++ b) = rstrip x.
Proof.
  intros H. unfold rstrip. rewrite rev_app_distr.
  now rewrite lstrip_spaces by now apply forallb_rev.
Qed.

Lemma strip_padded l l' : padded l l' -> strip l' = strip l.
Proof.
  intros (a & b & Ha & Hb & ->). unfold strip.
  rewrite (lstrip_spaces a _ Ha), lstrip_app.
  destruct (lstrip l) as [|c x] eqn:E.
  - pose proof (lstrip_spaces b [] Hb) as Hn. rewrite app_nil_r in Hn.
    now rewrite Hn.
  - now apply rstrip_spaces.
Qed.

Lemma demux_step_strip ch l l' :
  strip l' = strip l -> demux_step ch l' = demux_step ch l.
Proof.
  intros H. unfold demux_step, too_short, frame_cmd, frame_payload.
  now rewrite H.
Qed.

End Lines.

(** X8.  Demultiplexing a capture in two parts and appending the
    accumulators is demultiplexing the whole: the channels of
    [l1 ++ l2] are those of [l1] followed by those of [l2]. *)
Theorem demux_app (l1 l2 : list str) :
  demux (l1 ++ l2) =
    Channels (header_hex (demux l1) ++ header_hex (demux l2))
             (body_hex (demux l1) ++ body_hex (demux l2)).
Proof.
  rewrite !demux_routed, !routed_app, !concat_app. reflexivity.
Qed.

(** X9.  White space around a line is not seen: indentation, trailing
    blanks and the line terminator that [readlines] leaves change neither
    the channels nor the outcome of [parse_dump]. *)
Theorem demux_ignores_padding (lines lines' : list str) :
  Forall2 padded lines lines' ->
  demux lines' = demux lines /\ parse_dump lines' = parse_dump lines.
Proof.
  intros H.
  assert (Hd : demux lines' = demux lines).
  { unfold demux. generalize channels_init.
    induction H as [|l l' ls ls' Hp _ IH]; intros ch; [reflexivity|].
    cbn [fold_left].
    rewrite (demux_step_strip ch l l' (strip_padded l l' Hp)). apply IH. }
  split; [exact Hd|]. unfold parse_dump. now rewrite Hd.
Qed.

Lemma demux_ignores_padding_witness :
  demux [with_newline (lit "42AAAACAFEBABE");
         lit "  44BBBBC20012340000 "] =
  demux [lit "42AAAACAFEBABE"; lit "44BBBBC20012340000"].
Proof.
  apply (demux_ignores_padding
           [lit "42AAAACAFEBABE"; lit "44BBBBC20012340000"]
           [with_newline (lit "42AAAACAFEBABE");
            lit "  44BBBBC20012340000 "]).
  constructor; [|constructor; [|constructor]].
  - exists [], [ascii_of_nat 10]. repeat split.
  - exists (lit "  "), (lit " "). repeat split.
Defined.

(** X10.  Only the frames of the two channels count, and each channel
    only sees the order of its own frames: dropping every line that is
    too short or carries another command code, and moving the header
    frames before the body frames, leaves the channels unchanged. *)
Theorem demux_separates_channels (lines : list str) :
  demux lines =
    demux (frames_of (lit "42") lines ++ frames_of (lit "44") lines).
Proof.
  rewrite !demux_routed, !routed_app, !routed_frames_of.
  rewrite !frames_of_same.
  rewrite (frames_of_other (lit "42") (lit "44")) by discriminate.
  rewrite (frames_of_other (lit "44") (lit "42")) by discriminate.
  cbn [map app]. now rewrite app_nil_r.
Qed.

(** X11.  The blocks depend on the body frames alone: header frames and
    ignored lines never reach the segmenter, and a capture without a body
    frame is no error, it decodes to zero bytes and zero blocks. *)
Theorem blocks_depend_on_body_frames (lines : list str) :
  saved_blocks (parse_dump lines) =
    saved_blocks (parse_dump (frames_of (lit "44") lines)) /\
  (frames_of (lit "44") lines = [] ->
   parse_dump lines = Dumped (header_hex (demux lines)) [] []).
Proof.
  assert (Hb : body_hex (demux lines) =
               body_hex (demux (frames_of (lit "44") lines))).
  { rewrite !demux_routed. cbn [body_hex].
    now rewrite !routed_frames_of, frames_of_same. }
  split.
  - unfold parse_dump. rewrite <- Hb.
    now destruct (unhexlify (body_hex (demux lines))).
  - intros Hnone. unfold parse_dump. rewrite Hb, Hnone. reflexivity.
Qed.

Lemma blocks_depend_on_body_frames_witness :
  parse_dump [lit "42AAAACAFEBABE"; lit "43BBBBFFFFFFFFFFFF"] =
  Dumped (lit "CAFEBABE") [] [].
Proof.
  destruct (blocks_depend_on_body_frames
              [lit "42AAAACAFEBABE"; lit "43BBBBFFFFFFFFFFFF"])
    as [_ Hnone].
  exact (Hnone eq_refl).
Defined.

(** ** Hex text and back *)

Section Hex.

Lemma a2b_hex_byte b :
  a2b_hex (hex_of_byte b) = Some [b] /\
  a2b_hex (upper (hex_of_byte b)) = Some [b].
Proof. destruct b; split; reflexivity. Qed.

Lemma hex_cons b bs : hex (b :: bs) = hex_of_byte b ++ hex bs.
Proof. reflexivity. Qed.

Lemma a2b_hex_hex : forall bs,
  a2b_hex (hex bs) = Some bs /\ a2b_hex (upper (hex bs)) = Some bs.
Proof.
  induction bs as [|b bs [IH1 IH2]]; [split; reflexivity|].
  destruct (a2b_hex_byte b) as [Hb1 Hb2]. split.
  - rewrite hex_cons. change (b :: bs) with ([b] ++ bs).
    now apply a2b_hex_app.
  - rewrite upper_hex_cons. change (b :: bs) with ([b] ++ bs).
    now apply a2b_hex_app.
Qed.

Lemma hex_length bs : length (hex bs) = 2 * length bs.
Proof.
  induction bs as [|b bs IH]; [reflexivity|].
  rewrite hex_cons, length_app, IH. cbn [hex_of_byte length]. lia.
Qed.

Lemma upper_length s : length (upper s) = length s.
Proof. apply length_map. Qed.

End Hex.

(** ** Slicing a sequence into pieces of [n] *)

Section Chunks.

Variable A : Type.
Variable n : nat.
Hypothesis n_pos : 0 < n.

Lemma chunk_count len :
  0 < len -> (len + (n - 1)) / n = S ((len - n + (n - 1)) / n).
Proof.
  intros Hlen. destruct (le_lt_dec n len) as [Hge | Hlt].
  - replace (len + (n - 1)) with ((len - n + (n - 1)) + 1 * n) by lia.
    rewrite Nat.div_add by lia. lia.
  - replace (len - n + (n - 1)) with (n - 1) by lia.
    rewrite (Nat.div_small (n - 1) n) by lia.
    symmetry. apply (Nat.div_unique (len + (n - 1)) n 1 (len - 1)); lia.
Qed.

Lemma chunks_nil : chunks n (@nil A) = [].
Proof.
  unfold chunks, range. cbn [length]. rewrite Nat.sub_0_r, Nat.add_0_l.
  now rewrite Nat.div_small by lia.
Qed.

Lemma chunks_step (s : list A) :
  s <> [] -> chunks n s = firstn n s :: chunks n (skipn n s).
Proof.
  intros Hne. unfold chunks, range.
  rewrite length_skipn, !Nat.sub_0_r.
  rewrite chunk_count by (destruct s; [congruence | cbn [length]; lia]).
  rewrite <- cons_seq, <- seq_shift. cbn [map].
  replace (slice s (0 + 0 * n) (0 + 0 * n + n)) with (firstn n s)
    by (unfold slice; cbn [Nat.mul Nat.add skipn]; now rewrite Nat.sub_0_r).
  f_equal. rewrite !map_map. apply map_ext. intros k. unfold slice.
  rewrite skipn_skipn.
  replace (0 + S k * n) with (0 + k * n + n) by lia.
  f_equal. lia.
Qed.

Lemma chunks_ind (P : list A -> Prop) :
  P [] ->
  (forall s, s <> [] -> P (skipn n s) -> P s) ->
  forall s, P s.
Proof.
  intros Hnil Hstep s.
  induction s as [s IH] using (induction_ltof1 _ (@length A)).
  destruct s as [|x s]; [exact Hnil|].
  apply Hstep; [discriminate|].
  apply IH. unfold ltof. rewrite length_skipn. cbn [length]. lia.
Qed.

Lemma concat_chunks : forall s : list A, concat (chunks n s) = s.
Proof.
  induction s as [|s Hne IH] using chunks_ind; [now rewrite chunks_nil|].
  rewrite chunks_step by assumption. cbn [concat].
  rewrite IH. apply firstn_skipn.
Qed.

(** Every piece but the last is full, and the last is not empty. *)
Lemma chunks_lengths : forall (s : list A) full last,
  chunks n s = full ++ [last] ->
  Forall (fun c => length c = n) full /\ 0 < length last <= n.
Proof.
  induction s as [|s Hne IH] using chunks_ind; intros full last H.
  - rewrite chunks_nil in H. now destruct full.
  - rewrite chunks_step in H by assumption.
    destruct full as [|c full]; cbn [app] in H; injection H as Hc Hrest;
      rewrite <- Hc.
    + split; [constructor|].
      assert (Hs : skipn n s = []).
      { destruct (skipn n s) eqn:E; [reflexivity|].
        rewrite chunks_step in Hrest by discriminate. discriminate. }
      apply (f_equal (@length _)) in Hs. rewrite length_skipn in Hs.
      rewrite length_firstn. destruct s; [congruence | cbn [length] in *; lia].
    + destruct (IH _ _ Hrest) as [Hfull Hlast].
      split; [|exact Hlast]. constructor; [|exact Hfull].
      rewrite length_firstn.
      assert (Hs : skipn n s <> []).
      { intros E. rewrite E, chunks_nil in Hrest. now destruct full. }
      assert (length (skipn n s) <> 0)
        by (destruct (skipn n s); [congruence | discriminate]).
      rewrite length_skipn in *. lia.
Qed.

Lemma chunks_count (s : list A) :
  length (chunks n s) = (length s + (n - 1)) / n.
Proof.
  unfold chunks, range. rewrite !length_map, length_seq.
  now rewrite Nat.sub_0_r.
Qed.

End Chunks.

(** X12.  Hex text decodes back to its bytes: for every byte sequence,
    [unhexlify] of its [hex()], in lower or in upper case, is the
    sequence, and the text has two characters per byte.  So the
    [Header Hex] line of [parse_logs] decodes to the first 16 bytes of the
    file (to all of them when there are fewer). *)
Theorem hex_roundtrip (bs : bytes) :
  unhexlify (hex bs) = Decoded bs /\
  unhexlify (upper (hex bs)) = Decoded bs /\
  length (hex bs) = 2 * length bs /\
  unhexlify (header_view bs) = Decoded (firstn 16 bs).
Proof.
  destruct (a2b_hex_hex bs) as [H1 H2].
  destruct (a2b_hex_hex (firstn 16 bs)) as [_ H3].
  repeat split.
  - now apply unhexlify_Decoded.
  - now apply unhexlify_Decoded.
  - apply hex_length.
  - now apply unhexlify_Decoded.
Qed.

(** X13.  The hex dump printed for a block is its upper-case hex text cut
    into lines: put end to end the lines decode back to the block; every
    line but the last has exactly 32 characters (16 bytes) and the last
    has 1 to 32; and a block of [n] bytes takes [ceil(n / 16)] lines. *)
Theorem hex_dump_lines (block : bytes) :
  concat (hex_dump block) = upper (hex block) /\
  unhexlify (concat (hex_dump block)) = Decoded block /\
  (forall full last, hex_dump block = full ++ [last] ->
     Forall (fun line => length line = 32) full /\
     0 < length last <= 32) /\
  length (hex_dump block) = (length block + 15) / 16.
Proof.
  unfold hex_dump.
  assert (Hc : concat (chunks 32 (upper (hex block))) = upper (hex block))
    by (apply concat_chunks; lia).
  split; [exact Hc|]. split; [|split].
  - rewrite Hc. apply unhexlify_Decoded, a2b_hex_hex.
  - intros full last H. apply (chunks_lengths ascii 32) in H; [exact H | lia].
  - rewrite (chunks_count ascii 32), upper_length, hex_length.
    change (32 - 1) with 31. change 32 with (2 * 16).
    rewrite <- Nat.Div0.div_div. f_equal.
    symmetry. apply (Nat.div_unique _ 2 _ 1); lia.
Qed.

(** ** Saving the blocks *)

Section Saving.

Lemma list_ascii_of_string_inj s1 s2 :
  list_ascii_of_string s1 = list_ascii_of_string s2 -> s1 = s2.
Proof.
  intros H. apply (f_equal string_of_list_ascii) in H.
  now rewrite !string_of_list_ascii_of_string in H.
Qed.

Lemma str_of_nat_inj n m : str_of_nat n = str_of_nat m -> n = m.
Proof.
  unfold str_of_nat. intros H. apply list_ascii_of_string_inj in H.
  apply (f_equal DecimalString.NilEmpty.uint_of_string) in H.
  rewrite !DecimalString.NilEmpty.usu in H.
  injection H as H. now apply DecimalNat.Unsigned.to_uint_inj.
Qed.

Lemma block_filename_inj i j : block_filename i = block_filename j -> i = j.
Proof.
  unfold block_filename. intros H.
  apply app_inv_head, app_inv_tail, str_of_nat_inj in H. lia.
Qed.

(** The blocks saved from index [k] on. *)
Lemma save_from_cons k b bs :
  map (fun p => save_block (fst p) (snd p))
      (combine (seq k (length (b :: bs))) (b :: bs)) =
  save_block k b ::
  map (fun p => save_block (fst p) (snd p))
      (combine (seq (S k) (length bs)) bs).
Proof. reflexivity. Qed.

Lemma read_file_filter files name other :
  str_eqb other name = false ->
  read_file
    (filter (fun f => negb (str_eqb (fst f) other)) files) name =
  read_file files name.
Proof.
  intros Hne. unfold read_file.
  induction files as [|[fname content] files IH]; [reflexivity|].
  cbn [filter find fst].
  destruct (str_eqb fname other) eqn:E; cbn [negb].
  - apply str_eqb_eq in E. subst fname. rewrite Hne. exact IH.
  - cbn [find fst]. destruct (str_eqb fname name); [reflexivity | exact IH].
Qed.

Lemma str_eqb_neq a b : a <> b -> str_eqb a b = false.
Proof.
  intros H. destruct (str_eqb a b) eqn:E; [|reflexivity].
  apply str_eqb_eq in E. contradiction.
Qed.

(** Writing blocks leaves every file of another name as it was. *)
Lemma write_all_other : forall bs k files name,
  (forall i, k <= i < k + length bs -> block_filename i <> name) ->
  read_file
    (write_all files
       (map (fun p => save_block (fst p) (snd p))
            (combine (seq k (length bs)) bs))) name =
  read_file files name.
Proof.
  induction bs as [|b bs IH]; intros k files name Hname; [reflexivity|].
  rewrite save_from_cons. cbn [write_all save_block file_name file_content].
  rewrite IH by (intros i Hi; apply Hname; cbn [length]; lia).
  assert (Hk : str_eqb (block_filename k) name = false)
    by (apply str_eqb_neq, Hname; cbn [length]; lia).
  unfold read_file at 1. cbn [find fst]. rewrite Hk.
  now apply read_file_filter.
Qed.

(** Each block can be read back under its own name. *)
Lemma write_all_read : forall bs k files idx block,
  nth_error bs idx = Some block ->
  read_file
    (write_all files
       (map (fun p => save_block (fst p) (snd p))
            (combine (seq k (length bs)) bs)))
    (block_filename (k + idx)) = Some block.
Proof.
  induction bs as [|b bs IH]; intros k files idx block Hnth;
    [now destruct idx|].
  rewrite save_from_cons. cbn [write_all save_block file_name file_content].
  destruct idx as [|idx]; cbn [nth_error] in Hnth.
  - injection Hnth as ->. rewrite Nat.add_0_r.
    rewrite write_all_other.
    + unfold read_file. cbn [find fst snd]. now rewrite str_eqb_refl.
    + intros i Hi E. apply block_filename_inj in E. lia.
  - replace (k + S idx) with (S k + idx) by lia. now apply IH.
Qed.

Lemma save_from_names : forall bs k,
  map file_name
    (map (fun p => save_block (fst p) (snd p))
         (combine (seq k (length bs)) bs)) =
  map block_filename (seq k (length bs)).
Proof.
  induction bs as [|b bs IH]; intros k; [reflexivity|].
  rewrite save_from_cons. cbn [map length seq file_name save_block].
  now rewrite IH.
Qed.

Lemma save_from_content : forall bs k,
  map file_content
    (map (fun p => save_block (fst p) (snd p))
         (combine (seq k (length bs)) bs)) = bs.
Proof.
  induction bs as [|b bs IH]; intros k; [reflexivity|].
  rewrite save_from_cons. cbn [map file_content save_block].
  now rewrite IH.
Qed.

Lemma save_from_sizes : forall bs k,
  map size_printed
    (map (fun p => save_block (fst p) (snd p))
         (combine (seq k (length bs)) bs)) = map (@length byte) bs.
Proof.
  induction bs as [|b bs IH]; intros k; [reflexivity|].
  rewrite save_from_cons. cbn [map size_printed save_block].
  now rewrite IH.
Qed.

End Saving.

(** X14.  Blocks are saved under names that tell them apart: the file
    name is [dive_log_block_<n>.bin] with [n] counting from 1, different
    blocks get different names, and each saved file holds its block, whose
    size is the one printed. *)
Theorem block_files_are_distinct (blocks : list bytes) :
  (forall i j, block_filename i = block_filename j -> i = j) /\
  NoDup (map file_name (save_blocks blocks)) /\
  map file_name (save_blocks blocks) =
    map block_filename (seq 0 (length blocks)) /\
  map file_content (save_blocks blocks) = blocks /\
  map size_printed (save_blocks blocks) = map (@length byte) blocks.
Proof.
  split; [exact block_filename_inj|].
  unfold save_blocks, enumerate.
  split; [|split; [apply save_from_names
                  |split; [apply save_from_content | apply save_from_sizes]]].
  rewrite save_from_names.
  apply Finite.Injective_map_NoDup; [|apply seq_NoDup].
  exact block_filename_inj.
Qed.

(** X15.  After the writes every block can be read back from the file of
    its index, whatever the data directory held before, and a file whose
    name is none of the names written is left as it was: files of an
    earlier run with more blocks stay in the directory. *)
Theorem saved_blocks_read_back
  (files : list (str * bytes)) (blocks : list bytes) :
  (forall idx block,
     nth_error blocks idx = Some block ->
     read_file (write_all files (save_blocks blocks)) (block_filename idx) =
       Some block) /\
  (forall name,
     (forall idx, idx < length blocks -> block_filename idx <> name) ->
     read_file (write_all files (save_blocks blocks)) name =
       read_file files name).
Proof.
  unfold save_blocks, enumerate. split.
  - intros idx block H. now apply (write_all_read blocks 0 files idx block).
  - intros name H. apply write_all_other. intros i Hi. apply H. lia.
Qed.

Lemma saved_blocks_read_back_witness :
  read_file
    (write_all [(block_filename 0, [x00]); (block_filename 2, [x02])]
               (save_blocks [[xc2; x00]; [xc3; x00]]))
    (block_filename 1) = Some [xc3; x00] /\
  read_file
    (write_all [(block_filename 0, [x00]); (block_filename 2, [x02])]
               (save_blocks [[xc2; x00]; [xc3; x00]]))
    (block_filename 2) = Some [x02].
Proof.
  destruct (saved_blocks_read_back
              [(block_filename 0, [x00]); (block_filename 2, [x02])]
              [[xc2; x00]; [xc3; x00]]) as [Hread Hkeep].
  split.
  - apply Hread. reflexivity.
  - rewrite Hkeep; [reflexivity|].
    intros idx Hidx E. apply block_filename_inj in E.
    cbn [length] in Hidx. lia.
Defined.
